(** * Portfolio site: analytics tracker and contact form

    A shallow embedding of [analytics.js] (class [PortfolioAnalytics]) and of
    the submit handler of [script.js] ([initContactForm]), followed by the
    properties of the specification stated over that embedding.

    Further parts of [script.js] are embedded after the submit handler: the
    validation of the contact form with its regular expressions, the theme
    switcher, the highlighting of the navigation links, [debounce] and the
    filter of the blog posts.  The properties of the specification come first; the
    sections that follow them, from the session as a whole on, state what
    else the code guarantees.

    Conventions of the embedding.
    - A JavaScript number is a [number]: NaN, the two infinities, or a finite
      value held as an exact rational.  The rounding of binary64 arithmetic
      and the sign of zero are not represented; every zero divisor that the
      program can form is the difference [x - x], which is [+0] in IEEE 754.
    - Every handler is a computation in the monad [M]: it reads and updates a
      [world] (the tracker object, the variables captured by its closures and
      the analytics sink) and either returns or throws.  State changes made
      before a throw are kept, as in JavaScript.
    - What a handler reads from the browser (clock readings, DOM attributes,
      scroll geometry, performance entries) is an argument of the handler. *)

From Stdlib Require Import QArith Qround ZArith Lia Ascii String Sorted.
From stdpp Require Import gmap strings list fin_maps.

Local Open Scope string_scope.

(** ** JavaScript numbers *)

Module JS.

Inductive number : Type :=
| NaN
| Infinity (negative : bool)
| Fin (q : Q).

Definition of_Z (z : Z) : number := Fin (inject_Z z).

(** [a - b] *)
Definition sub (a b : number) : number :=
  match a, b with
  | NaN, _ | _, NaN => NaN
  | Infinity s, Infinity t => if Bool.eqb s t then NaN else Infinity s
  | Infinity s, Fin _ => Infinity s
  | Fin _, Infinity t => Infinity (negb t)
  | Fin x, Fin y => Fin (Qred (x - y))
  end.

(** [a * b] *)
Definition mul (a b : number) : number :=
  match a, b with
  | NaN, _ | _, NaN => NaN
  | Infinity s, Infinity t => Infinity (xorb s t)
  | Infinity s, Fin y | Fin y, Infinity s =>
      match (y ?= 0)%Q with
      | Eq => NaN
      | Gt => Infinity s
      | Lt => Infinity (negb s)
      end
  | Fin x, Fin y => Fin (Qred (x * y))
  end.

(** [a / b]; a finite zero divisor is [+0]. *)
Definition div (a b : number) : number :=
  match a, b with
  | NaN, _ | _, NaN => NaN
  | Infinity _, Infinity _ => NaN
  | Infinity s, Fin y =>
      match (y ?= 0)%Q with
      | Lt => Infinity (negb s)
      | _ => Infinity s
      end
  | Fin _, Infinity _ => Fin 0
  | Fin x, Fin y =>
      match (y ?= 0)%Q with
      | Eq =>
          match (x ?= 0)%Q with
          | Eq => NaN
          | Gt => Infinity false
          | Lt => Infinity true
          end
      | _ => Fin (Qred (x / y))
      end
  end.

(** [Math.round(a)]: the nearest integer, halves towards [+Infinity]. *)
Definition round (a : number) : number :=
  match a with
  | Fin q => of_Z (Qfloor (q + (1 # 2)))
  | _ => a
  end.

(** [Math.max(a, b)] *)
Definition max (a b : number) : number :=
  match a, b with
  | NaN, _ | _, NaN => NaN
  | Infinity false, _ | _, Infinity false => Infinity false
  | Infinity true, x | x, Infinity true => x
  | Fin x, Fin y => if Qle_bool x y then Fin y else Fin x
  end.

(** [a > b] *)
Definition gt (a b : number) : bool :=
  match a, b with
  | NaN, _ | _, NaN => false
  | Infinity s, Infinity t => negb s && t
  | Infinity s, Fin _ => negb s
  | Fin _, Infinity t => t
  | Fin x, Fin y => negb (Qle_bool x y)
  end.

(** [a <= b] *)
Definition le (a b : number) : bool :=
  match a, b with
  | NaN, _ | _, NaN => false
  | Infinity s, Infinity t => s || negb t
  | Infinity s, Fin _ => s
  | Fin _, Infinity t => negb t
  | Fin x, Fin y => Qle_bool x y
  end.

(** *** Strings *)

(** The rest of [s] after the prefix [p], when [s] starts with [p]. *)
Fixpoint strip_prefix (p s : string) : option string :=
  match p, s with
  | EmptyString, _ => Some s
  | String a p', String b s' =>
      if Ascii.eqb a b then strip_prefix p' s' else None
  | String _ _, EmptyString => None
  end.

(** [s.includes(sub)] *)
Fixpoint includes (s sub : string) : bool :=
  match strip_prefix sub s with
  | Some _ => true
  | None =>
      match s with
      | EmptyString => false
      | String _ s' => includes s' sub
      end
  end.

(** [s.replace(pat, rep)] for a string pattern: the first occurrence only. *)
Fixpoint replace (s pat rep : string) : string :=
  match strip_prefix pat s with
  | Some rest => rep ++ rest
  | None =>
      match s with
      | EmptyString => EmptyString
      | String c s' => String c (replace s' pat rep)
      end
  end.

(** White space removed by [trim] among the characters below 128. *)
Definition is_space (c : ascii) : bool :=
  let n := nat_of_ascii c in
  (n =? 32)%nat || ((9 <=? n)%nat && (n <=? 13)%nat).

Fixpoint trimStart (s : string) : string :=
  match s with
  | String c s' => if is_space c then trimStart s' else s
  | EmptyString => EmptyString
  end.

Fixpoint trimEnd (s : string) : string :=
  match s with
  | EmptyString => EmptyString
  | String c s' =>
      match trimEnd s' with
      | EmptyString => if is_space c then EmptyString else String c EmptyString
      | t => String c t
      end
  end.

(** [s.trim()] *)
Definition trim (s : string) : string := trimEnd (trimStart s).

End JS.

(** ** analytics.js *)

Module Analytics.
Import JS.

(** An entry of [this.interactions].  The [type] field of the JavaScript
    object is the constructor; [interaction_type] gives it back as the string
    the source stores. *)
Inductive interaction : Type :=
| Navigation (section : string) (timestamp : Z)
| Social (platform : string) (timestamp : Z)
| Project (project linkType : string) (timestamp : Z)
| Cta (button : string) (timestamp : Z)
| Theme (theme : string) (timestamp : Z)
| SectionView (section : string) (timestamp : Z).

Definition interaction_type (i : interaction) : string :=
  match i with
  | Navigation _ _ => "navigation"
  | Social _ _ => "social"
  | Project _ _ _ => "project"
  | Cta _ _ => "cta"
  | Theme _ _ => "theme"
  | SectionView _ _ => "section_view"
  end.

(** The arguments of one call [gtag('event', action, {...})]; an argument
    left out by the caller ([undefined]) is [None]. *)
Record gtag_event : Type := GtagEvent {
  action : string;
  event_category : string;
  event_label : string;
  value : option number
}.

(** The global [gtag]: [None] when [typeof gtag === 'undefined'], otherwise
    the function, described by the calls on which it throws. *)
Definition sink : Type := option (gtag_event → bool).

Inductive exn : Type :=
| TypeError
| SinkError.

(** The fields of the [PortfolioAnalytics] object, and the variables that the
    closures of [trackScrollBehavior] and [trackSectionViews] capture. *)
Record tracker : Type := Tracker {
  startTime : number;
  interactions : list interaction;
  performanceMetrics : list (string * number);
  maxScroll : number;
  scrollTimeout : bool;
  sectionViews : gmap string Z
}.

(** The page: the tracker, the sink with the events it has accepted, the
    console, and the trace of the calls of [this.trackEvent], each with
    whether it returned. *)
Record world : Type := World {
  gtag : sink;
  sent : list gtag_event;
  console : list string;
  calls : list (gtag_event * bool);
  this : tracker
}.

Definition with_this (f : tracker → tracker) (w : world) : world :=
  World (gtag w) (sent w) (console w) (calls w) (f (this w)).

Definition with_sent (f : list gtag_event → list gtag_event) (w : world) : world :=
  World (gtag w) (f (sent w)) (console w) (calls w) (this w).

Definition with_console (f : list string → list string) (w : world) : world :=
  World (gtag w) (sent w) (f (console w)) (calls w) (this w).

Definition with_calls (f : list (gtag_event * bool) → list (gtag_event * bool))
    (w : world) : world :=
  World (gtag w) (sent w) (console w) (f (calls w)) (this w).

Definition set_interactions (v : list interaction) (t : tracker) : tracker :=
  Tracker (startTime t) v (performanceMetrics t) (maxScroll t)
    (scrollTimeout t) (sectionViews t).

Definition set_performanceMetrics (v : list (string * number)) (t : tracker)
  : tracker :=
  Tracker (startTime t) (interactions t) v (maxScroll t)
    (scrollTimeout t) (sectionViews t).

Definition set_maxScroll (v : number) (t : tracker) : tracker :=
  Tracker (startTime t) (interactions t) (performanceMetrics t) v
    (scrollTimeout t) (sectionViews t).

Definition set_scrollTimeout (v : bool) (t : tracker) : tracker :=
  Tracker (startTime t) (interactions t) (performanceMetrics t) (maxScroll t)
    v (sectionViews t).

Definition set_sectionViews (v : gmap string Z) (t : tracker) : tracker :=
  Tracker (startTime t) (interactions t) (performanceMetrics t) (maxScroll t)
    (scrollTimeout t) v.

(** *** The monad of handlers *)

Inductive outcome (A : Type) : Type :=
| Return (a : A)
| Throw (e : exn).
Arguments Return {A} a.
Arguments Throw {A} e.

Definition M (A : Type) : Type := world → outcome A * world.

#[export] Instance M_ret : MRet M := λ A a w, (Return a, w).

#[export] Instance M_bind : MBind M := λ A B f c w,
  match c w with
  | (Return a, w') => f a w'
  | (Throw e, w') => (Throw e, w')
  end.

Definition throw {A : Type} (e : exn) : M A := λ w, (Throw e, w).

Definition gets {A : Type} (f : world → A) : M A := λ w, (Return (f w), w).

Definition modify (f : world → world) : M unit := λ w, (Return (), f w).

Definition update (f : tracker → tracker) : M unit := modify (with_this f).

(** [xs.forEach(body)]: an exception of [body] ends the loop. *)
Fixpoint forEach {A : Type} (xs : list A) (body : A → M unit) : M unit :=
  match xs with
  | [] => mret ()
  | x :: xs' => body x;; forEach xs' body
  end.

(** [this.interactions.push(i)] *)
Definition push (i : interaction) : M unit :=
  update (λ t, set_interactions (interactions t ++ [i]) t).

(** [console.log], [console.error] *)
Definition console_log (line : string) : M unit :=
  modify (with_console (λ lines, (lines ++ [line])%list)).

(** A call of the global [gtag], known to be the function [throws]. *)
Definition call_gtag (throws : gtag_event → bool) (ev : gtag_event) : M unit :=
  if throws ev then throw SinkError
  else modify (with_sent (λ evs, (evs ++ [ev])%list)).

Definition returned {A : Type} (r : outcome A) : bool :=
  match r with Return _ => true | Throw _ => false end.

(** Runs [c] and enters the call in the trace of [this.trackEvent]. *)
Definition traced (ev : gtag_event) (c : M unit) : M unit := λ w,
  let '(r, w') := c w in
  (r, with_calls (λ cs, (cs ++ [(ev, returned r)])%list) w').

(** *** The class *)

(** [setupGoogleAnalytics]: the arrow function stored in [this.trackEvent]. *)
Definition trackEvent (action category label : string) (value : option number)
  : M unit :=
  let ev := GtagEvent action category label value in
  traced ev (
    g ← gets gtag;
    match g with
    | Some f => call_gtag f ev
    | None => mret ()
    end).

(** [constructor], at reading [now] of [performance.now()].  The listeners
    that [init] registers are the handlers below; [maxScroll] and
    [sectionViews] are the locals created by [trackScrollBehavior] and
    [trackSectionViews].  The line that [trackPerformanceMetrics] logs when
    the long-task observer cannot be set up is left out of [console]. *)
Definition constructor (g : sink) (now : Q) : world :=
  World g [] [] []
    (Tracker (Fin now) [] [] (of_Z 0) false ∅).

(** A [PerformanceNavigationTiming] entry, as far as it is read. *)
Record navTiming : Type := NavTiming {
  domContentLoadedEventStart : Q;
  domContentLoadedEventEnd : Q;
  loadEventStart : Q;
  loadEventEnd : Q
}.

(** A [PerformancePaintTiming] entry. *)
Record paintEntry : Type := PaintEntry {
  name : string;
  paint_startTime : Q
}.

(** What [performance.getEntriesByType] answers for the two types asked. *)
Record perfEntries : Type := PerfEntries {
  navigation : list navTiming;
  paint : list paintEntry
}.

Definition find_paint (n : string) (paintEntries : list paintEntry)
  : option paintEntry :=
  List.find (λ entry, String.eqb (name entry) n) paintEntries.

(** [getFirstPaint] *)
Definition getFirstPaint (p : perfEntries) : number :=
  match find_paint "first-paint" (paint p) with
  | Some firstPaint => round (Fin (paint_startTime firstPaint))
  | None => of_Z 0
  end.

(** [getFirstContentfulPaint] *)
Definition getFirstContentfulPaint (p : perfEntries) : number :=
  match find_paint "first-contentful-paint" (paint p) with
  | Some firstContentfulPaint => round (Fin (paint_startTime firstContentfulPaint))
  | None => of_Z 0
  end.

(** The object literal assigned to [this.performanceMetrics], in the order
    [Object.entries] lists it. *)
Definition captureMetrics (nav : navTiming) (p : perfEntries)
  : list (string * number) :=
  [ ("domContentLoaded",
      round (sub (Fin (domContentLoadedEventEnd nav))
                 (Fin (domContentLoadedEventStart nav))));
    ("loadComplete",
      round (sub (Fin (loadEventEnd nav)) (Fin (loadEventStart nav))));
    ("firstPaint", getFirstPaint p);
    ("firstContentfulPaint", getFirstContentfulPaint p) ].

(** [trackPageLoad]: the listener of the window's [load] event.  [now] is
    the reading of [performance.now()]; [entries] is [None] when
    [performance.getEntriesByType] is missing. *)
Definition onLoad (now : Q) (entries : option perfEntries) : M unit :=
  start ← gets (λ w, startTime (this w));
  let loadTime := sub (Fin now) start in
  trackEvent "page_load_time" "Performance" "Load Time" (Some (round loadTime));;
  match entries with
  | None => mret ()
  | Some p =>
      match head (navigation p) with
      | None => mret ()
      | Some nav =>
          update (set_performanceMetrics (captureMetrics nav p));;
          metrics ← gets (λ w, performanceMetrics (this w));
          forEach metrics (λ '(metric, value),
            if gt value (of_Z 0)
            then trackEvent metric "Performance" metric (Some value)
            else mret ())
      end
  end.

(** [getSocialPlatform] *)
Definition getSocialPlatform (url : string) : string :=
  if includes url "linkedin" then "LinkedIn"
  else if includes url "github" then "GitHub"
  else if includes url "codechef" then "CodeChef"
  else "Unknown".

(** [trackUserInteractions]: the click listener of a [.nav-link].  [href] is
    [e.target.getAttribute('href')], [None] for [null]; [now] is
    [Date.now()]. *)
Definition onNavClick (href : option string) (now : Z) : M unit :=
  match href with
  | None => throw TypeError
  | Some h =>
      let section := replace h "#" EmptyString in
      trackEvent "navigation_click" "User Interaction" section None;;
      push (Navigation section now)
  end.

(** The click listener of a [.social-link]; [href] is [link.href]. *)
Definition onSocialClick (href : string) (now : Z) : M unit :=
  let platform := getSocialPlatform href in
  trackEvent "social_click" "User Interaction" platform None;;
  push (Social platform now).

(** The click listener of a project link.  [textContent] is the link's text;
    [title] is the text of the [h4] of the enclosing [.project-card], [None]
    when [closest] or [querySelector] answers [null]. *)
Definition onProjectClick (textContent : string) (title : option string)
    (now : Z) : M unit :=
  let linkType := if includes textContent "Demo" then "live_demo" else "repository" in
  match title with
  | None => throw TypeError
  | Some projectTitle =>
      trackEvent "project_click" "User Interaction"
        (projectTitle ++ " - " ++ linkType) None;;
      push (Project projectTitle linkType now)
  end.

(** The click listener of a hero button or contact link. *)
Definition onCtaClick (textContent : string) (now : Z) : M unit :=
  let buttonText := trim textContent in
  trackEvent "cta_click" "User Interaction" buttonText None;;
  push (Cta buttonText now).

(** The click listener of [#themeToggle]; [attr] is
    [document.body.getAttribute('data-theme')]. *)
Definition onThemeClick (attr : option string) (now : Z) : M unit :=
  let currentTheme :=
    match attr with
    | Some s => if String.eqb s EmptyString then "light" else s
    | None => "light"
    end in
  let newTheme := if String.eqb currentTheme "light" then "dark" else "light" in
  trackEvent "theme_change" "User Interaction" newTheme None;;
  push (Theme newTheme now).

(** [trackScrollBehavior]: the scroll percentage computed by the listener
    from [window.scrollY], [document.body.scrollHeight] and
    [window.innerHeight]. *)
Definition scrollPercent (scrollY : Q) (scrollHeight innerHeight : Z) : number :=
  round (mul (div (Fin scrollY) (sub (of_Z scrollHeight) (of_Z innerHeight)))
             (of_Z 100)).

(** The scroll listener: it raises the running maximum, cancels the pending
    timer and sets a new one. *)
Definition onScroll (scrollY : Q) (scrollHeight innerHeight : Z) : M unit :=
  update (λ t, set_maxScroll
                 (max (maxScroll t) (scrollPercent scrollY scrollHeight innerHeight)) t);;
  update (set_scrollTimeout false);;
  update (set_scrollTimeout true).

(** The callback given to [setTimeout] by the scroll listener. *)
Definition onScrollTimeout : M unit :=
  m ← gets (λ w, maxScroll (this w));
  trackEvent "scroll_depth" "User Behavior" "Max Scroll Percentage" (Some m).

(** An [IntersectionObserverEntry], as far as it is read. *)
Record observerEntry : Type := ObserverEntry {
  isIntersecting : bool;
  intersectionRatio : Q;
  target_id : string
}.

(** [sectionViews.has(id)] *)
Definition has (m : gmap string Z) (id : string) : bool :=
  bool_decide (is_Some (m !! id)).

(** [trackSectionViews]: the body of [entries.forEach] in the observer's
    callback.  Both readings of [Date.now()] are [now]. *)
Definition observeEntry (now : Z) (entry : observerEntry) : M unit :=
  if isIntersecting entry && gt (Fin (intersectionRatio entry)) (Fin (1 # 2))
  then
    let sectionId := target_id entry in
    views ← gets (λ w, sectionViews (this w));
    if negb (has views sectionId)
    then
      update (λ t, set_sectionViews (<[sectionId := now]> (sectionViews t)) t);;
      trackEvent "section_view" "User Behavior" sectionId None;;
      push (SectionView sectionId now)
    else mret ()
  else mret ().

(** The callback of the [IntersectionObserver]. *)
Definition onIntersection (entries : list observerEntry) (now : Z) : M unit :=
  forEach entries (observeEntry now).

(** [trackPerformanceMetrics]: the callback given to [setInterval], set only
    when [performance.memory] exists; the arguments are its three fields. *)
Definition onMemoryInterval (usedJSHeapSize totalJSHeapSize jsHeapSizeLimit : Z)
  : M unit :=
  let used := round (div (of_Z usedJSHeapSize) (of_Z 1048576)) in
  if gt used (of_Z 10)
  then trackEvent "memory_usage" "Performance" "Used JS Heap Size (MB)" (Some used)
  else mret ().

(** The callback of the long-task [PerformanceObserver]; [durations] are the
    [duration] fields of [list.getEntries()]. *)
Definition onLongTasks (durations : list Q) : M unit :=
  forEach durations (λ duration,
    if gt (Fin duration) (of_Z 50)
    then trackEvent "long_task" "Performance" "Task Duration"
           (Some (round (Fin duration)))
    else mret ()).

(** [setupErrorTracking]: the listener of the window's [error] event. *)
Definition onError (message : string) : M unit :=
  trackEvent "javascript_error" "Error" message (Some (of_Z 1));;
  console_log ("Tracked JS Error: " ++ message).

(** The listener of [unhandledrejection]; [reason] is the rejection reason
    as it prints. *)
Definition onUnhandledRejection (reason : string) : M unit :=
  trackEvent "promise_rejection" "Error" reason (Some (of_Z 1));;
  console_log ("Tracked Promise Rejection: " ++ reason).

(** [a || 0] on a property that holds a count or is missing.  Counts are
    kept as naturals: they stay far below 2^53, where numbers are exact. *)
Definition or_zero (a : option nat) : nat :=
  match a with
  | Some (S n) => S n
  | Some O | None => O
  end.

(** [getInteractionSummary]: the object [summary], keyed by type.  None of
    the six type strings names a property of [Object.prototype], so a key not
    yet written reads as [undefined]. *)
Definition getInteractionSummary (t : tracker) : gmap string nat :=
  fold_left
    (λ (summary : gmap string nat) i,
       <[interaction_type i := (or_zero (summary !! interaction_type i) + 1)%nat]> summary)
    (interactions t) ∅.

(** The object returned by [getAnalyticsSummary]. *)
Record summary : Type := Summary {
  summary_performanceMetrics : list (string * number);
  totalInteractions : nat;
  interactionTypes : gmap string nat;
  sessionDuration : number
}.

(** [getAnalyticsSummary], at reading [now] of [Date.now()]. *)
Definition getAnalyticsSummary (now : Z) : M summary :=
  t ← gets this;
  mret (Summary (performanceMetrics t)
                (length (interactions t))
                (getInteractionSummary t)
                (sub (of_Z now) (startTime t))).

(** [trackConversion] *)
Definition trackConversion (type : string) (value : option number) : M unit :=
  trackEvent "conversion" "Conversion" type value;;
  if String.eqb type "contact_attempt"
  then trackEvent "contact_attempt" "Lead Generation" "Contact Form" (Some (of_Z 1))
  else if String.eqb type "project_engagement"
  then trackEvent "project_engagement" "Portfolio Engagement" "Project View" (Some (of_Z 1))
  else if String.eqb type "resume_download"
  then trackEvent "resume_download" "Lead Generation" "Resume Download" (Some (of_Z 1))
  else mret ().

(** [trackPageExit]: the listener of [beforeunload], at reading [now] of
    [Date.now()]. *)
Definition onBeforeUnload (now : Z) : M unit :=
  start ← gets (λ w, startTime (this w));
  let sessionDuration := sub (of_Z now) start in
  trackEvent "session_duration" "User Behavior" "Time on Site"
    (Some (round (div sessionDuration (of_Z 1000)))).

(** *** Sessions *)

(** What can happen to the tracker after its construction: a browser event
    delivered to one of its listeners, or a call of a public method. *)
Inductive event : Type :=
| PageLoad (now : Q) (entries : option perfEntries)
| NavClick (href : option string) (now : Z)
| SocialClick (href : string) (now : Z)
| ProjectClick (textContent : string) (title : option string) (now : Z)
| CtaClick (textContent : string) (now : Z)
| ThemeClick (attr : option string) (now : Z)
| Scroll (scrollY : Q) (scrollHeight innerHeight : Z)
| ScrollTimeout
| Intersection (entries : list observerEntry) (now : Z)
| MemoryInterval (usedJSHeapSize totalJSHeapSize jsHeapSizeLimit : Z)
| LongTasks (durations : list Q)
| Error (message : string)
| UnhandledRejection (reason : string)
| BeforeUnload (now : Z)
| TrackConversion (type : string) (value : option number)
| GetAnalyticsSummary (now : Z).

(** The handler that an event reaches.  The timer of the scroll listener
    runs its callback only while it is pending, and is spent by running. *)
Definition dispatch (e : event) : M unit :=
  match e with
  | PageLoad now entries => onLoad now entries
  | NavClick href now => onNavClick href now
  | SocialClick href now => onSocialClick href now
  | ProjectClick textContent title now => onProjectClick textContent title now
  | CtaClick textContent now => onCtaClick textContent now
  | ThemeClick attr now => onThemeClick attr now
  | Scroll scrollY scrollHeight innerHeight => onScroll scrollY scrollHeight innerHeight
  | ScrollTimeout =>
      pending ← gets (λ w, scrollTimeout (this w));
      if pending : bool
      then update (set_scrollTimeout false);; onScrollTimeout
      else mret ()
  | Intersection entries now => onIntersection entries now
  | MemoryInterval used total limit => onMemoryInterval used total limit
  | LongTasks durations => onLongTasks durations
  | Error message => onError message
  | UnhandledRejection reason => onUnhandledRejection reason
  | BeforeUnload now => onBeforeUnload now
  | TrackConversion type value => trackConversion type value
  | GetAnalyticsSummary now => getAnalyticsSummary now;; mret ()
  end.

(** A session: the events are handled one after the other; an exception
    leaves its handler and the next event is handled all the same. *)
Definition run (es : list event) (w : world) : world :=
  fold_left (λ w e, snd (dispatch e w)) es w.

(** The outcome of each handler of a session, in order. *)
Fixpoint outcomes (es : list event) (w : world) : list (outcome unit) :=
  match es with
  | [] => []
  | e :: es' => let '(r, w') := dispatch e w in r :: outcomes es' w'
  end.

End Analytics.

(** ** script.js: the contact form *)

Module ContactForm.

(** A form control: its value, the value [reset] gives it back, and its
    class list. *)
Record field : Type := Field {
  field_value : string;
  field_defaultValue : string;
  field_classList : gset string
}.

(** The elements that [initContactForm] looks up and the submit listener
    changes; an element is kept as its [classList]. *)
Record page : Type := Page {
  submitBtn_disabled : bool;
  btnText : gset string;
  btnLoading : gset string;
  successMessage : gset string;
  errorMessage : gset string;
  formInputs : list field;
  console : list string
}.

(** [classList.add(c)], [classList.remove(c)], [classList.contains(c)] *)
Definition add (c : string) (classList : gset string) : gset string :=
  classList ∪ {[c]}.
Definition remove (c : string) (classList : gset string) : gset string :=
  classList ∖ {[c]}.
Definition contains (c : string) (classList : gset string) : bool :=
  bool_decide (c ∈ classList).

(** How the promise of [simulateFormSubmission] settles. *)
Inductive settlement : Type :=
| Resolved (success : bool) (message : string)
| Rejected (message : string).

(** [simulateFormSubmission], once its timer has run; [random] is the value
    drawn by [Math.random()].  The literal [0.1] is taken as the rational
    1/10; the two differ at no value that [Math.random()] returns. *)
Definition simulateFormSubmission (random : Q) : settlement :=
  if negb (Qle_bool random (1 # 10))
  then Resolved true "Message sent successfully"
  else Rejected "Simulated network error".

(** [contactForm.reset()] *)
Definition reset (fs : list field) : list field :=
  map (λ f, Field (field_defaultValue f) (field_defaultValue f) (field_classList f)) fs.

Section Submit.

(** [validateForm]: its verdict and the fields as it leaves them.  The
    listener does not depend on the checks it makes; they are embedded in
    [Validation] below. *)
Variable validateForm : list field → bool * list field.

(** The submit listener up to its [await]: [true] when the submission was
    started, [false] when validation stopped it.  Scrolling and focus are
    not kept in [page]. *)
Definition submitStart (p : page) : bool * page :=
  let success := add "d-none" (successMessage p) in
  let error := add "d-none" (errorMessage p) in
  let '(isValid, inputs) := validateForm (formInputs p) in
  if negb isValid
  then (false,
        Page (submitBtn_disabled p) (btnText p) (btnLoading p)
          success error inputs (console p))
  else (true,
        Page true (add "d-none" (btnText p)) (remove "d-none" (btnLoading p))
          success error inputs (console p)).

(** The [finally] block. *)
Definition resetButton (p : page) : page :=
  Page false (remove "d-none" (btnText p)) (add "d-none" (btnLoading p))
    (successMessage p) (errorMessage p) (formInputs p) (console p).

(** The submit listener from the settlement of the awaited promise: the
    rest of the [try] block or the [catch] block, then [finally]. *)
Definition submitSettled (s : settlement) (p : page) : page :=
  resetButton
    match s with
    | Resolved _ _ =>
        Page (submitBtn_disabled p) (btnText p) (btnLoading p)
          (remove "d-none" (successMessage p)) (errorMessage p)
          (map (λ input,
                  Field (field_value input) (field_defaultValue input)
                    (remove "is-invalid" (remove "is-valid" (field_classList input))))
               (reset (formInputs p)))
          (console p)
    | Rejected message =>
        Page (submitBtn_disabled p) (btnText p) (btnLoading p)
          (successMessage p) (remove "d-none" (errorMessage p))
          (formInputs p)
          (console p ++ ["Form submission error: Error: " ++ message])
    end.

(** The whole listener, when nothing else runs while it waits. *)
Definition onSubmit (random : Q) (p : page) : page :=
  let '(started, p') := submitStart p in
  if started : bool
  then submitSettled (simulateFormSubmission random) p'
  else p'.

End Submit.

End ContactForm.


(** ** script.js: validation of the contact form *)

(** Regular expressions of the form [/^...$/] without flags, as the source
    writes them: a string is a list of UTF-16 code units and [test] decides
    whether the whole string matches. *)
Module RegExp.

Inductive re : Type :=
| Never
| Empty
| Class (p : N → bool)
| Seq (r1 r2 : re)
| Or (r1 r2 : re)
| Star (r : re).

(** [r+], [r?] and [r{0,n}] *)
Definition plus (r : re) : re := Seq r (Star r).

Definition optional (r : re) : re := Or Empty r.

Fixpoint upto (n : nat) (r : re) : re :=
  match n with
  | O => Empty
  | S n' => optional (Seq r (upto n' r))
  end.

Fixpoint nullable (r : re) : bool :=
  match r with
  | Never => false
  | Empty => true
  | Class _ => false
  | Seq r1 r2 => nullable r1 && nullable r2
  | Or r1 r2 => nullable r1 || nullable r2
  | Star _ => true
  end.

(** What is left of [r] after the code unit [c]. *)
Fixpoint deriv (c : N) (r : re) : re :=
  match r with
  | Never => Never
  | Empty => Never
  | Class p => if p c then Empty else Never
  | Seq r1 r2 =>
      if nullable r1
      then Or (Seq (deriv c r1) r2) (deriv c r2)
      else Seq (deriv c r1) r2
  | Or r1 r2 => Or (deriv c r1) (deriv c r2)
  | Star r1 => Seq (deriv c r1) (Star r1)
  end.

(** [/^r$/.test(s)] *)
Fixpoint test (r : re) (s : list N) : bool :=
  match s with
  | [] => nullable r
  | c :: s' => test (deriv c r) s'
  end.

(** The strings of a regular expression. *)
Inductive matches : re → list N → Prop :=
| matches_empty : matches Empty []
| matches_class p c : p c = true → matches (Class p) [c]
| matches_seq r1 r2 s1 s2 :
    matches r1 s1 → matches r2 s2 → matches (Seq r1 r2) (s1 ++ s2)
| matches_or_l r1 r2 s : matches r1 s → matches (Or r1 r2) s
| matches_or_r r1 r2 s : matches r2 s → matches (Or r1 r2) s
| matches_star_nil r : matches (Star r) []
| matches_star_cons r s1 s2 :
    matches r s1 → matches (Star r) s2 → matches (Star r) (s1 ++ s2).

(** [\s]: white space and line terminators. *)
Definition space (c : N) : bool :=
  ((9 <=? c) && (c <=? 13) || (c =? 32) || (c =? 160) || (c =? 5760)
   || (8192 <=? c) && (c <=? 8202) || (c =? 8232) || (c =? 8233)
   || (c =? 8239) || (c =? 8287) || (c =? 12288) || (c =? 65279))%N.

(** [\d] *)
Definition digit (c : N) : bool := ((48 <=? c) && (c <=? 57))%N.

Definition unit_is (c : N) (d : N) : bool := (c =? d)%N.

(** [s.trim()] *)
Fixpoint trimStart (s : list N) : list N :=
  match s with
  | c :: s' => if space c then trimStart s' else s
  | [] => []
  end.

Fixpoint trimEnd (s : list N) : list N :=
  match s with
  | [] => []
  | c :: s' =>
      match trimEnd s' with
      | [] => if space c then [] else [c]
      | t => c :: t
      end
  end.

Definition trim (s : list N) : list N := trimEnd (trimStart s).

End RegExp.

Module Validation.
Import RegExp.

(** [/^[^\s@]+@[^\s@]+\.[^\s@]+$/] *)
Definition emailRegex : re :=
  let part := plus (Class (λ c, negb (space c || unit_is 64 c))) in
  Seq part (Seq (Class (unit_is 64)) (Seq part (Seq (Class (unit_is 46)) part))).

(** [/^[\+]?[1-9][\d]{0,15}$/] *)
Definition phoneRegex : re :=
  Seq (optional (Class (unit_is 43)))
    (Seq (Class (λ c, (49 <=? c) && (c <=? 57))%N) (upto 15 (Class digit))).

(** [s.replace(/[\s\-\(\)]/g, '')] *)
Definition stripSeparators (s : list N) : list N :=
  List.filter (λ c, negb (space c || unit_is 45 c || unit_is 40 c || unit_is 41 c)) s.

(** A form control, as far as [validateForm] reads and writes it.
    [required] says that the control is inside [#contactForm] and carries the
    [required] attribute. *)
Record control : Type := Control {
  id : string;
  name : string;
  type : string;
  required : bool;
  value : list N;
  classList : gset string
}.

Definition mark (c : string) (field : control) : control :=
  Control (id field) (name field) (type field) (required field) (value field)
    (ContactForm.add c (classList field)).

(** [field.classList.remove('is-valid', 'is-invalid')] *)
Definition unmark (field : control) : control :=
  Control (id field) (name field) (type field) (required field) (value field)
    (ContactForm.remove "is-invalid" (ContactForm.remove "is-valid" (classList field))).

(** The body of [requiredFields.forEach]: whether the field passes, and the
    field with its new mark. *)
Definition checkRequired (field : control) : bool * control :=
  let value := trim (value field) in
  let field := unmark field in
  match value with
  | [] => (false, mark "is-invalid" field)
  | _ =>
      if String.eqb (type field) "email" then
        if negb (test emailRegex value)
        then (false, mark "is-invalid" field)
        else (true, mark "is-valid" field)
      else if String.eqb (name field) "firstName" || String.eqb (name field) "lastName" then
        if (length value <? 2)%nat
        then (false, mark "is-invalid" field)
        else (true, mark "is-valid" field)
      else if String.eqb (name field) "message" then
        if (length value <? 10)%nat
        then (false, mark "is-invalid" field)
        else (true, mark "is-valid" field)
      else (true, mark "is-valid" field)
  end.

(** The check of the optional phone field: [None] when it is skipped. *)
Definition checkPhone (phoneField : control) : option (bool * control) :=
  match trim (value phoneField) with
  | [] => None
  | v =>
      if negb (test phoneRegex (stripSeparators v))
      then Some (false, mark "is-invalid" phoneField)
      else Some (true, mark "is-valid" phoneField)
  end.

(** [validateForm] over the controls of the document, in document order:
    the verdict and the controls as it leaves them.  The element with the id
    [phone] is taken to be a control. *)
Definition validateForm (controls : list control) : bool * list control :=
  let checked :=
    map (λ field, if required field then checkRequired field else (true, field))
        controls in
  let isValid := forallb fst checked in
  let controls := map snd checked in
  match list_find (λ field, id field = "phone") controls with
  | Some (i, phoneField) =>
      match checkPhone phoneField with
      | Some (ok, phoneField') => (isValid && ok, <[i := phoneField']> controls)
      | None => (isValid, controls)
      end
  | None => (isValid, controls)
  end.

End Validation.

(** ** script.js: the theme switcher *)

Module Theme.

(** The timeouts of [initThemeSwitcher]; both kinds have a delay of 150 ms,
    so they run in the order in which they were set. *)
Inductive timer : Type :=
| IconTimer (theme : string)
| ScaleTimer.

(** What the theme switcher reads and writes: the [data-theme] attribute of
    the body, the item [theme] of [localStorage], the icon, the toggle, the
    [content] of the [theme-color] meta element ([None] when the document
    has no such element), the [themeChanged] events dispatched and the
    timeouts that are pending, oldest first.  The item is written by this
    page only, and [localStorage] does not throw. *)
Record page : Type := Page {
  dataTheme : option string;
  storage : option string;
  iconClassName : string;
  iconTransform : string;
  toggleTransform : string;
  metaThemeColor : option string;
  dispatched : list string;
  timeouts : list timer
}.

(** [x || d] for a string or [null]. *)
Definition or_else (x : option string) (d : string) : string :=
  match x with
  | Some EmptyString | None => d
  | Some s => s
  end.

(** [!x] for a string or [null]. *)
Definition falsy (x : option string) : bool :=
  match x with
  | Some EmptyString | None => true
  | Some _ => false
  end.

(** [updateMetaThemeColor]: the element is created when it is missing. *)
Definition updateMetaThemeColor (theme : string) : option string :=
  Some (if String.eqb theme "dark" then "#0f172a" else "#6366f1").

Definition setTheme (theme : string) (p : page) : page :=
  Page (Some theme) (Some theme)
    (iconClassName p) "rotate(180deg)" (toggleTransform p)
    (updateMetaThemeColor theme)
    (dispatched p ++ [theme])
    (timeouts p ++ [IconTimer theme]).

(** The click listener of the toggle. *)
Definition onClick (p : page) : page :=
  let currentTheme := or_else (dataTheme p) "light" in
  let newTheme := if String.eqb currentTheme "light" then "dark" else "light" in
  let p := setTheme newTheme p in
  Page (dataTheme p) (storage p) (iconClassName p) (iconTransform p)
    "scale(0.9)" (metaThemeColor p) (dispatched p)
    (timeouts p ++ [ScaleTimer]).

(** The keydown listener of the toggle: [this.click()] runs the click
    listener before it returns. *)
Definition onKeydown (key : string) (p : page) : page :=
  if String.eqb key "Enter" || String.eqb key " " then onClick p else p.

(** The change listener of the media query [(prefers-color-scheme: dark)]. *)
Definition onMediaChange (matches : bool) (p : page) : page :=
  if falsy (storage p)
  then setTheme (if matches then "dark" else "light") p
  else p.

(** The oldest pending timeout runs. *)
Definition onTimeout (p : page) : page :=
  match timeouts p with
  | [] => p
  | IconTimer theme :: rest =>
      Page (dataTheme p) (storage p)
        (if String.eqb theme "dark" then "fas fa-sun" else "fas fa-moon")
        "rotate(0deg)" (toggleTransform p) (metaThemeColor p) (dispatched p) rest
  | ScaleTimer :: rest =>
      Page (dataTheme p) (storage p) (iconClassName p) (iconTransform p)
        "scale(1)" (metaThemeColor p) (dispatched p) rest
  end.

(** [initThemeSwitcher]; [matchMedia] is [None] when [window.matchMedia] is
    missing and otherwise holds [mediaQuery.matches]. *)
Definition initThemeSwitcher (matchMedia : option bool) (p : page) : page :=
  let savedTheme := or_else (storage p) "light" in
  let p := setTheme savedTheme p in
  match matchMedia with
  | Some matches =>
      if falsy (storage p)
      then setTheme (if matches then "dark" else "light") p
      else p
  | None => p
  end.

Inductive event : Type :=
| Click
| Keydown (key : string)
| MediaChange (matches : bool)
| TimeoutRuns.

Definition dispatch (e : event) : page → page :=
  match e with
  | Click => onClick
  | Keydown key => onKeydown key
  | MediaChange matches => onMediaChange matches
  | TimeoutRuns => onTimeout
  end.

Definition run (es : list event) (p : page) : page :=
  fold_left (λ p e, dispatch e p) es p.

End Theme.

(** ** script.js: the navigation bar *)

Module Navigation.

(** A [section[id]] element: its [id] and its [offsetTop]. *)
Record section : Type := SectionElement {
  section_id : string;
  offsetTop : Z
}.

(** A [.nav-link] element: its [href] attribute ([None] when it has none)
    and its class list. *)
Record link : Type := Link {
  href : option string;
  classList : gset string
}.

(** The first [forEach] of [updateActiveNavLink]: the [id] of the last
    section, in document order, that the scroll position has reached. *)
Definition current (sections : list section) (scrollY : Q) : string :=
  fold_left
    (λ current section,
       if Qle_bool (inject_Z (offsetTop section - 200)) scrollY
       then section_id section
       else current)
    sections EmptyString.

Definition updateActiveNavLink
    (sections : list section) (scrollY : Q) (navLinks : list link) : list link :=
  let current := current sections scrollY in
  map (λ link,
         let classList := ContactForm.remove "active" (classList link) in
         Link (href link)
           (if bool_decide (href link = Some ("#" ++ current))
            then ContactForm.add "active" classList
            else classList))
      navLinks.

(** The click listener of [initSmoothScrolling] on a link to
    [targetSection]: the [top] that it passes to [window.scrollTo]. *)
Definition smoothScrollTop (targetSection : section) : Z :=
  offsetTop targetSection - 80.

End Navigation.

(** ** script.js: [debounce] *)

Module Debounce.

Section Debounce.

(** The arguments of [func] and what [func] acts on. *)
Context {A S : Type}.

(** The clock in milliseconds, the timeout that the variable [timeout]
    names while it is pending (when it is due, and the arguments that
    [later] has captured), and what [func] acts on. *)
Record state : Type := State {
  now : Z;
  timeout : option (Z * A);
  world : S
}.

Variable func : A → S → S.
Variable wait : Z.

(** [executedFunction(...args)]: the pending timeout is cleared and a new
    one is set. *)
Definition executedFunction (args : A) (st : state) : state :=
  State (now st) (Some (now st + wait, args)%Z) (world st).

(** [d] milliseconds pass without a call; [later] runs when it is due. *)
Definition onWait (d : Z) (st : state) : state :=
  match timeout st with
  | Some (due, args) =>
      if (due <=? now st + d)%Z
      then State (now st + d) None (func args (world st))
      else State (now st + d) (timeout st) (world st)
  | None => State (now st + d) None (world st)
  end.

Inductive event : Type :=
| Call (args : A)
| Wait (d : Z).

Definition dispatch (e : event) : state → state :=
  match e with
  | Call args => executedFunction args
  | Wait d => onWait d
  end.

Definition run (es : list event) (st : state) : state :=
  fold_left (λ st e, dispatch e st) es st.

End Debounce.

Arguments state : clear implicits.
Arguments event : clear implicits.

End Debounce.

(** ** script.js: the filter of the blog posts *)

Module BlogFilter.

(** A [.blog-post] element: its [data-category] attribute ([None] when it
    has none) and the style properties that the filter writes.  Of these,
    [display] is written by the filter only; the hover listeners and the
    observer of [initBlogFilter], which also write the other three, and the
    classes of the buttons are left out. *)
Record blogPost : Type := Post {
  category : option string;
  display : string;
  opacity : string;
  transform : string;
  transition : string
}.

(** What a timeout of the click listener does, to the post with the index
    [i] of [blogPosts]. *)
Inductive action : Type :=
| ShowPost (i : nat)
| HidePost (i : nat).

#[global] Instance action_eq_dec : EqDecision action.
Proof. solve_decision. Defined.

Record timer : Type := Timer {
  due : Z;
  act : action
}.

(** The clock in milliseconds, the posts, and the timeouts that are pending,
    in the order in which they will run: by time, and for the same time in
    the order in which they were set. *)
Record page : Type := Page {
  now : Z;
  blogPosts : list blogPost;
  pending : list timer
}.

(** [setTimeout] *)
Fixpoint schedule (t : timer) (pending : list timer) : list timer :=
  match pending with
  | [] => [t]
  | t' :: rest =>
      if (due t' <=? due t)%Z then t' :: schedule t rest else t :: pending
  end.

(** [filter === 'all' || category === filter]; both attributes may be
    missing, and [null === null]. *)
Definition selected (filter : option string) (post : blogPost) : bool :=
  bool_decide (filter = Some "all") || bool_decide (category post = filter).

(** The body of [blogPosts.forEach] in the click listener: the post as it
    leaves it and the timeout it sets. *)
Definition filterPost (now : Z) (filter : option string) (i : nat) (post : blogPost)
  : blogPost * timer :=
  if selected filter post
  then (Post (category post) "block" "0" "translateY(20px)" (transition post),
        Timer (now + 100) (ShowPost i))
  else (Post (category post) (display post) "0" "translateY(-20px)" "all 0.3s ease",
        Timer (now + 300) (HidePost i)).

(** The click listener of a filter button with the attribute [data-filter],
    on the posts. *)
Definition onClick (filter : option string) (p : page) : page :=
  let results := imap (filterPost (now p) filter) (blogPosts p) in
  Page (now p) (fst <$> results)
    (fold_left (λ pending r, schedule (snd r) pending) results (pending p)).

(** A timeout runs. *)
Definition fire (a : action) (posts : list blogPost) : list blogPost :=
  match a with
  | ShowPost i =>
      alter (λ post, Post (category post) (display post) "1" "translateY(0)"
                       "all 0.4s ease") i posts
  | HidePost i =>
      alter (λ post, Post (category post) "none" (opacity post) (transform post)
                       (transition post)) i posts
  end.

(** The timeouts that are due by [target] run. *)
Fixpoint elapse (target : Z) (pending : list timer) (posts : list blogPost)
  : list timer * list blogPost :=
  match pending with
  | [] => ([], posts)
  | t :: rest =>
      if (due t <=? target)%Z
      then elapse target rest (fire (act t) posts)
      else (pending, posts)
  end.

(** [d] milliseconds pass without a click. *)
Definition onWait (d : Z) (p : page) : page :=
  let '(pending, posts) := elapse (now p + d) (pending p) (blogPosts p) in
  Page (now p + d) posts pending.

Inductive event : Type :=
| Click (filter : option string)
| Wait (d : Z).

Definition dispatch (e : event) : page → page :=
  match e with
  | Click filter => onClick filter
  | Wait d => onWait d
  end.

Definition run (es : list event) (p : page) : page :=
  fold_left (λ p e, dispatch e p) es p.

End BlogFilter.

(** ** Vocabulary of the properties *)

Import JS Analytics.

Arguments trackEvent : simpl never.

(** *** Sinks and the trace of reports *)

(** The sink lets the call [gtag('event', ...)] for [ev] return: it is absent
    or does not throw on [ev]. *)
Definition accepts (g : sink) (ev : gtag_event) : bool :=
  match g with
  | Some throws => negb (throws ev)
  | None => true
  end.

(** The sink is absent or never throws. *)
Definition quiet (g : sink) : Prop := ∀ ev, accepts g ev = true.

(** The world once a present sink has taken [ev]. *)
Definition deliver (ev : gtag_event) (w : world) : world :=
  match gtag w with
  | Some _ => with_sent (λ evs, (evs ++ [ev])%list) w
  | None => w
  end.

(** The world once the trace has the call for [ev], returned or not. *)
Definition entered (ev : gtag_event) (ok : bool) (w : world) : world :=
  with_calls (λ cs, (cs ++ [(ev, ok)])%list) w.

(** The calls of [this.trackEvent] made between [w] and [w']. *)
Definition reported (w w' : world) : list (gtag_event * bool) :=
  drop (length (calls w)) (calls w').

(** [c] keeps the invariant [I] of the world, whether it returns or throws. *)
Definition preserves {A : Type} (I : world → Prop) (c : M A) : Prop :=
  ∀ w, I w → I (snd (c w)).

(** A field of the tracker has the value [x]. *)
Definition keeps {X : Type} (field : tracker → X) (x : X) (w : world) : Prop :=
  field (this w) = x.

(** *** The interaction log *)

(** The actions that the listeners of [trackUserInteractions] and
    [trackSectionViews] report, each followed by a [push]. *)
Definition interaction_actions : list string :=
  ["navigation_click"; "social_click"; "project_click"; "cta_click";
   "theme_change"; "section_view"].

Definition is_interaction_call (c : gtag_event * bool) : bool :=
  snd c && bool_decide (action (fst c) ∈ interaction_actions).

(** The number of calls of [this.trackEvent] that returned and carry an
    interaction action. *)
Definition interaction_calls (cs : list (gtag_event * bool)) : nat :=
  length (filter (λ c, is_interaction_call c = true) cs).

Definition logged (w : world) : Prop :=
  length (interactions (this w)) = interaction_calls (calls w).

(** The sum of the counts of a summary object. *)
Definition total_count (m : gmap string nat) : nat :=
  map_fold (λ _ n acc, (n + acc)%nat) 0%nat m.

(** *** Two sinks *)

(** Two worlds with the sinks [g1] and [g2] that are otherwise the same,
    up to what the sinks have received. *)
Definition alike (g1 g2 : sink) (w1 w2 : world) : Prop :=
  gtag w1 = g1 ∧ gtag w2 = g2 ∧
  this w1 = this w2 ∧ console w1 = console w2 ∧ calls w1 = calls w2.

(** [c] has the same outcome in alike worlds and keeps them alike. *)
Definition agree {A : Type} (g1 g2 : sink) (c : M A) : Prop :=
  ∀ w1 w2, alike g1 g2 w1 w2 →
    fst (c w1) = fst (c w2) ∧ alike g1 g2 (snd (c w1)) (snd (c w2)).

(** No sink, and nothing received. *)
Definition unheard (w : world) : Prop := gtag w = None ∧ sent w = [].

(** Without a sink, [c] stays without one and throws no [SinkError]. *)
Definition silent {A : Type} (c : M A) : Prop :=
  ∀ w, unheard w → unheard (snd (c w)) ∧ fst (c w) ≠ Throw SinkError.

(** *** Section views *)











(** *** Scrolling *)

(** The scroll event has a scrollable range other than zero. *)
Definition scrollable (e : event) : Prop :=
  match e with
  | Scroll _ scrollHeight innerHeight => scrollHeight ≠ innerHeight
  | _ => True
  end.

(** The scroll event has a positive scrollable range and an offset inside
    it. *)
Definition within_range (e : event) : Prop :=
  match e with
  | Scroll scrollY scrollHeight innerHeight =>
      (innerHeight < scrollHeight)%Z ∧
      (0 <= scrollY)%Q ∧ (scrollY <= inject_Z (scrollHeight - innerHeight))%Q
  | _ => True
  end.

(** The integer that [scrollPercent] holds when the range is not zero. *)
Definition percent (y : Q) (h ih : Z) : Z :=
  Qfloor (Qred (Qred (y / Qred (inject_Z h - inject_Z ih)) * inject_Z 100)
          + (1 # 2)).

(** *** Conversions and load metrics *)

(** The kinds that [trackConversion] reports a second time. *)
Definition recognized : list string :=
  ["contact_attempt"; "project_engagement"; "resume_download"].

(** The entry of the trace for a metric that the load listener reports. *)
Definition report (mv : string * number) : gtag_event * bool :=
  (GtagEvent mv.1 "Performance" mv.1 (Some mv.2), true).

Definition positive (mv : string * number) : Prop := gt mv.2 (of_Z 0) = true.

(** *** The contact form *)

(** The element carries the class that hides it. *)
Definition hidden (classList : gset string) : Prop := "d-none" ∈ classList.

(** The submit button is enabled, its text shown and its spinner hidden. *)
Definition ready (p : ContactForm.page) : Prop :=
  ContactForm.submitBtn_disabled p = false ∧
  ¬ hidden (ContactForm.btnText p) ∧ hidden (ContactForm.btnLoading p).

(** *** The session as a whole *)

(** [w] continues [w0]: the log, the events sent and the trace have only
    grown at their ends, and the start time is the same. *)
Definition continues (w0 w : world) : Prop :=
  interactions (this w0) `prefix_of` interactions (this w) ∧
  sent w0 `prefix_of` sent w ∧
  calls w0 `prefix_of` calls w ∧
  startTime (this w) = startTime (this w0).

(** The registry still holds every section of [m0] with its timestamp. *)
Definition remembers (m0 : gmap string Z) (w : world) : Prop :=
  m0 ⊆ sectionViews (this w).

(** The type of the log entry that a click listener writes. *)
Definition click_type (e : event) : option string :=
  match e with
  | NavClick _ _ => Some "navigation"
  | SocialClick _ _ => Some "social"
  | ProjectClick _ _ _ => Some "project"
  | CtaClick _ _ => Some "cta"
  | ThemeClick _ _ => Some "theme"
  | _ => None
  end.

(** The number of entries of the log with the type [ty]. *)
Definition count_type (ty : string) (log : list interaction) : nat :=
  length (filter (λ i, interaction_type i = ty) log).

Definition is_scroll (e : event) : Prop :=
  match e with Scroll _ _ _ => True | _ => False end.

(** [sub] occurs in [s]. *)
Definition occurs (sub s : string) : Prop := ∃ pre post, s = pre ++ sub ++ post.

(** The event that [trackConversion] reports second for a recognized kind. *)
Definition specific_event (type : string) : gtag_event :=
  if String.eqb type "contact_attempt"
  then GtagEvent type "Lead Generation" "Contact Form" (Some (of_Z 1))
  else if String.eqb type "project_engagement"
  then GtagEvent type "Portfolio Engagement" "Project View" (Some (of_Z 1))
  else GtagEvent type "Lead Generation" "Resume Download" (Some (of_Z 1)).


(** *** Validation *)

(** A part of an address: not empty, without white space and without [@]. *)
Definition address_part (s : list N) : Prop :=
  s ≠ [] ∧ Forall (λ c, RegExp.space c = false ∧ c ≠ 64%N) s.

(** [local@domain.tld] *)
Definition address (v : list N) : Prop :=
  ∃ local domain tld,
    v = (local ++ [64%N] ++ domain ++ [46%N] ++ tld)%list ∧
    address_part local ∧ address_part domain ∧ address_part tld.

(** An optional [+], a digit from 1 to 9 and at most 15 more digits. *)
Definition phone_number (v : list N) : Prop :=
  ∃ sign first rest,
    v = (sign ++ first :: rest)%list ∧
    (sign = [] ∨ sign = [43%N]) ∧
    (49 ≤ first ≤ 57)%N ∧
    Forall (λ c, (48 ≤ c ≤ 57)%N) rest ∧ (length rest ≤ 15)%nat.

(** [f'] is [f] with white space put before and after its value. *)
Definition padded (f f' : Validation.control) : Prop :=
  ∃ before after,
    Forall (λ c, RegExp.space c = true) before ∧
    Forall (λ c, RegExp.space c = true) after ∧
    f' = Validation.Control (Validation.id f) (Validation.name f)
           (Validation.type f) (Validation.required f)
           (before ++ Validation.value f ++ after)%list (Validation.classList f).

Definition marked_valid (f : Validation.control) : Prop :=
  "is-valid" ∈ Validation.classList f ∧ "is-invalid" ∉ Validation.classList f.

Definition marked_invalid (f : Validation.control) : Prop :=
  "is-invalid" ∈ Validation.classList f.

(** The control [f'] is the control [f] put back to its default value and
    without the marks of the validation; its other classes are those of
    [f]. *)
Definition cleared (f f' : ContactForm.field) : Prop :=
  ContactForm.field_value f' = ContactForm.field_defaultValue f ∧
  ContactForm.field_defaultValue f' = ContactForm.field_defaultValue f ∧
  ("is-valid" ∉ ContactForm.field_classList f') ∧
  ("is-invalid" ∉ ContactForm.field_classList f') ∧
  ∀ c, c ≠ "is-valid" → c ≠ "is-invalid" →
       c ∈ ContactForm.field_classList f' ↔ c ∈ ContactForm.field_classList f.

(** *** The theme *)

(** What the page shows for a theme: the class of the icon and the colour of
    the meta element. *)
Definition icon_of (theme : string) : string :=
  if String.eqb theme "dark" then "fas fa-sun" else "fas fa-moon".

Definition colour_of (theme : string) : string :=
  if String.eqb theme "dark" then "#0f172a" else "#6366f1".

(** The theme of the youngest pending timeout of the icon. *)
Definition pending_icon (ts : list Theme.timer) : option string :=
  last (omap (λ t, match t with
                   | Theme.IconTimer theme => Some theme
                   | Theme.ScaleTimer => None
                   end) ts).

(** The page is in the theme [t]: attribute, storage, meta element and the
    last event agree on it, and so does the icon, now or once its pending
    timeouts have run. *)
Definition themed (t : string) (p : Theme.page) : Prop :=
  t ≠ EmptyString ∧
  Theme.dataTheme p = Some t ∧ Theme.storage p = Some t ∧
  Theme.metaThemeColor p = Some (colour_of t) ∧
  last (Theme.dispatched p) = Some t ∧
  match pending_icon (Theme.timeouts p) with
  | Some t' => t' = t
  | None =>
      Theme.iconClassName p = icon_of t ∧ Theme.iconTransform p = "rotate(0deg)"
  end.

(** The page once every pending timeout has run. *)
Definition settle (p : Theme.page) : Theme.page :=
  Theme.run (replicate (length (Theme.timeouts p)) Theme.TimeoutRuns) p.

Definition is_media_change (e : Theme.event) : bool :=
  match e with Theme.MediaChange _ => true | _ => false end.

(** *** The navigation bar *)

(** The sections come in the document in the order of their tops. *)
Definition ascending (sections : list Navigation.section) : Prop :=
  StronglySorted (λ a b, (Navigation.offsetTop a ≤ Navigation.offsetTop b)%Z)
    sections.

(** The scroll position has reached the section: it is at most 200 px above
    its top. *)
Definition reached (scrollY : Q) (s : Navigation.section) : Prop :=
  (inject_Z (Navigation.offsetTop s - 200) <= scrollY)%Q.

(** The link is highlighted. *)
Definition active (l : Navigation.link) : Prop :=
  "active" ∈ Navigation.classList l.

(** *** Debounced calls *)

(** A burst of calls: a first call, and then calls that each come [gap]
    milliseconds after the one before. *)
Definition burst {A : Type} (first : A) (calls : list (Z * A))
  : list (Debounce.event A) :=
  Debounce.Call first ::
  concat ((λ c, [Debounce.Wait c.1; Debounce.Call c.2]) <$> calls).

(** The arguments of the last call of the burst. *)
Definition last_args {A : Type} (first : A) (calls : list (Z * A)) : A :=
  default first (last (snd <$> calls)).

(** *** The filter of the blog posts *)

(** The style of the post with the index [i]. *)
Definition shows (p : BlogFilter.page) (i : nat) (display opacity : string) : Prop :=
  ∃ post, BlogFilter.blogPosts p !! i = Some post ∧
          BlogFilter.display post = display ∧ BlogFilter.opacity post = opacity.

(** The posts once the timeouts [ts] have run, in their order. *)
Definition fired (ts : list BlogFilter.timer) (posts : list BlogFilter.blogPost)
  : list BlogFilter.blogPost :=
  fold_left (λ posts t, BlogFilter.fire (BlogFilter.act t) posts) ts posts.

(** *** Sample inputs *)

(** A sink that takes every event. *)
Definition accepting : gtag_event → bool := λ _, false.

(** A sink that throws on every event. *)
Definition rejecting : gtag_event → bool := λ _, true.

Definition sample_conversion : list event :=
  [TrackConversion "resume_download" (Some (of_Z 1))].

Definition sample_session : list event :=
  [NavClick (Some "#about") 5; Scroll 30 2000 1000; ScrollTimeout;
   TrackConversion "contact_attempt" None; NavClick None 9].


Definition sample_scrolls : list event :=
  [Scroll 300 2000 1000; ScrollTimeout].

Definition sample_more_scrolls : list event :=
  [Scroll 100 2000 1000; Scroll 1000 2000 1000].

(** A body 1100 px high under a 1000 px window, scrolled by 116 px: 16 px
    of margin lie outside [document.body.scrollHeight]. *)
Definition sample_overscroll : list event := [Scroll 116 1100 1000].

Definition sample_timing : navTiming := NavTiming 1000 1200 1500 0.

Definition sample_entries : perfEntries :=
  PerfEntries [sample_timing] [PaintEntry "first-paint" (3001 # 10)].

Definition sample_validateForm (fs : list ContactForm.field)
  : bool * list ContactForm.field := (true, fs).

Definition sample_page : ContactForm.page :=
  ContactForm.Page false ∅ {["d-none"]} {["d-none"]} {["d-none"]} [] [].

(** A tracker that has seen the section [about] at time 5, and a later
    session that sees it again. *)
Definition sample_seen : world :=
  run [Intersection [ObserverEntry true (3 # 4) "about"] 5] (constructor None 0).

Definition sample_revisit : list event :=
  [Intersection [ObserverEntry true 1 "about"] 9; NavClick (Some "#about") 11].

Definition sample_click : event := ThemeClick (Some "light") 3.

(** The required e-mail control holding [ a@b.co ] with a space at each
    end, and the same control without the spaces. *)
Definition sample_email : Validation.control :=
  Validation.Control "email" "email" "email" true
    [32; 97; 64; 98; 46; 99; 111; 32]%N ∅.

Definition sample_email_trimmed : Validation.control :=
  Validation.Control "email" "email" "email" true
    [97; 64; 98; 46; 99; 111]%N ∅.

(** A page whose form holds one control, with a typed value and a mark. *)
Definition sample_filled_page : ContactForm.page :=
  ContactForm.Page false ∅ {["d-none"]} {["d-none"]} {["d-none"]}
    [ContactForm.Field "Ada" EmptyString {["form-control"; "is-valid"]}] [].

(** A first visit, with nothing stored, and a later visit that finds [dark]
    stored. *)
Definition sample_first_visit : Theme.page :=
  Theme.Page None None "fas fa-moon" EmptyString EmptyString None [] [].

Definition sample_later_visit : Theme.page :=
  Theme.Page None (Some "dark") "fas fa-moon" EmptyString EmptyString None [] [].

Definition sample_sections : list Navigation.section :=
  [Navigation.SectionElement "home" 0; Navigation.SectionElement "about" 600;
   Navigation.SectionElement "skills" 1400].

Definition sample_links : list Navigation.link :=
  [Navigation.Link (Some "#home") {["nav-link"; "active"]};
   Navigation.Link (Some "#about") {["nav-link"]}].

(** A debounced function that records its arguments, with nothing
    pending. *)
Definition sample_record (args : string) (log : list string) : list string :=
  (log ++ [args])%list.

Definition sample_debounced : Debounce.state string (list string) :=
  Debounce.State 0 None [].

(** Two posts, shown, and nothing pending. *)
Definition sample_post : BlogFilter.blogPost :=
  BlogFilter.Post (Some "css") "block" "1" "translateY(0)" EmptyString.

Definition sample_blog : BlogFilter.page :=
  BlogFilter.Page 0
    [BlogFilter.Post (Some "react") "block" "1" "translateY(0)" EmptyString;
     sample_post]
    [].

(** ** Handlers as computations *)

Lemma bind_run {A B : Type} (c : M A) (f : A → M B) (w : world) :
  (c ≫= f) w =
  match c w with
  | (Return a, w') => f a w'
  | (Throw e, w') => (Throw e, w')
  end.
Proof. reflexivity. Qed.

Lemma bind_ret_unit (c : M unit) (w : world) : (c;; mret ()) w = c w.
Proof. rewrite bind_run. by destruct (c w) as [[[]|e] w']. Qed.

Lemma run_app (es1 es2 : list event) (w : world) :
  run (es1 ++ es2) w = run es2 (run es1 w).
Proof. apply fold_left_app. Qed.

Lemma deliver_gtag (ev : gtag_event) (w : world) : gtag (deliver ev w) = gtag w.
Proof. unfold deliver. destruct (gtag w) eqn:Hg; simpl; congruence. Qed.

Lemma deliver_this (ev : gtag_event) (w : world) : this (deliver ev w) = this w.
Proof. unfold deliver. by destruct (gtag w). Qed.

Lemma deliver_calls (ev : gtag_event) (w : world) : calls (deliver ev w) = calls w.
Proof. unfold deliver. by destruct (gtag w). Qed.

Lemma deliver_console (ev : gtag_event) (w : world) :
  console (deliver ev w) = console w.
Proof. unfold deliver. by destruct (gtag w). Qed.

Lemma deliver_absent (ev : gtag_event) (w : world) :
  gtag w = None → deliver ev w = w.
Proof. unfold deliver. intros Hg. by rewrite Hg. Qed.

Ltac world_simpl :=
  unfold entered; simpl;
  rewrite ?deliver_gtag, ?deliver_this, ?deliver_calls, ?deliver_console;
  simpl.

(** What one call of [this.trackEvent] does. *)
Lemma trackEvent_run (a c l : string) (v : option number) (w : world) :
  trackEvent a c l v w =
  let ev := GtagEvent a c l v in
  if accepts (gtag w) ev
  then (Return (), entered ev true (deliver ev w))
  else (Throw SinkError, entered ev false w).
Proof.
  unfold trackEvent, traced, deliver. rewrite bind_run. simpl.
  destruct (gtag w) as [f|] eqn:Hg; simpl; [|done].
  unfold call_gtag. destruct (f _); simpl; done.
Qed.

Lemma trackEvent_absent (a c l : string) (v : option number) (w : world) :
  gtag w = None →
  trackEvent a c l v w = (Return (), entered (GtagEvent a c l v) true w).
Proof. intros Hg. rewrite trackEvent_run. simpl. by rewrite Hg, deliver_absent. Qed.

(** The [load] listener reads back the metrics it has just stored. *)
Lemma onLoad_run (now : Q) (entries : option perfEntries) (w : world) :
  onLoad now entries w =
  (start ← gets (λ w, startTime (this w));
   trackEvent "page_load_time" "Performance" "Load Time"
     (Some (round (sub (Fin now) start)));;
   match entries with
   | None => mret ()
   | Some p =>
       match head (navigation p) with
       | None => mret ()
       | Some nav =>
           update (set_performanceMetrics (captureMetrics nav p));;
           forEach (captureMetrics nav p) (λ '(metric, value),
             if gt value (of_Z 0)
             then trackEvent metric "Performance" metric (Some value)
             else mret ())
       end
   end) w.
Proof.
  unfold onLoad, gets. rewrite !bind_run. cbv beta iota.
  destruct (trackEvent _ _ _ _ w) as [[[]|e] w1]; [|done].
  destruct entries as [p|]; [|done].
  destruct (head (navigation p)) as [nav|]; done.
Qed.

(** *** Invariants of handlers *)

Section Preserves.
Context {A B : Type}.
Implicit Types (I : world → Prop).

Lemma preserves_bind I (c : M A) (f : A → M B) :
  preserves I c → (∀ a, preserves I (f a)) → preserves I (c ≫= f).
Proof.
  intros Hc Hf w Hw. rewrite bind_run.
  specialize (Hc w Hw). destruct (c w) as [[a|e] w']; simpl in *.
  - by apply Hf.
  - done.
Qed.

Lemma preserves_ret I (a : A) : preserves I (mret a).
Proof. by intros w Hw. Qed.

Lemma preserves_throw I (e : exn) : preserves I (throw e : M A).
Proof. by intros w Hw. Qed.

Lemma preserves_gets I (f : world → A) : preserves I (gets f).
Proof. by intros w Hw. Qed.

Lemma preserves_ext I (c c' : M A) :
  (∀ w, c w = c' w) → preserves I c' → preserves I c.
Proof. intros Heq Hc w Hw. rewrite Heq. by apply Hc. Qed.

End Preserves.

Lemma preserves_forEach {A : Type} (I : world → Prop) (xs : list A)
    (body : A → M unit) :
  (∀ x, preserves I (body x)) → preserves I (forEach xs body).
Proof.
  intros Hbody. induction xs as [|x xs IH]; simpl.
  - apply preserves_ret.
  - apply preserves_bind; [apply Hbody | intros _; apply IH].
Qed.

Lemma preserves_run (I : world → Prop) (es : list event) :
  (∀ e, preserves I (dispatch e)) → ∀ w, I w → I (run es w).
Proof.
  intros Hd. unfold run. induction es as [|e es IH]; intros w Hw; simpl.
  - done.
  - apply IH. by apply Hd.
Qed.

(** Takes a handler apart down to its calls of [trackEvent], its updates
    and its console lines, which [leaf] settles. *)
Ltac preserves_step leaf :=
  first
    [ leaf
    | apply preserves_ret
    | apply preserves_throw
    | apply preserves_gets
    | apply preserves_forEach; intros ?
    | apply preserves_bind; [|intros ?]
    | match goal with
      | |- preserves _ (if ?b then _ else _) => destruct b
      | |- preserves _ (match ?x with _ => _ end) => destruct x
      end ].

Ltac unfold_handlers :=
  unfold onNavClick, onSocialClick, onProjectClick, onCtaClick,
    onThemeClick, onScroll, onScrollTimeout, onIntersection, observeEntry,
    onMemoryInterval, onLongTasks, onError, onUnhandledRejection,
    onBeforeUnload, trackConversion, getAnalyticsSummary.

(** ** The interaction log and the calls of [trackEvent] *)

Lemma interaction_calls_app (cs ds : list (gtag_event * bool)) :
  interaction_calls (cs ++ ds) = (interaction_calls cs + interaction_calls ds)%nat.
Proof. unfold interaction_calls. by rewrite filter_app, length_app. Qed.

(** A report that is no interaction adds nothing to either side. *)
Lemma logged_trackEvent (a c l : string) (v : option number) :
  a ∉ interaction_actions → preserves logged (trackEvent a c l v).
Proof.
  intros Ha w Hw. rewrite trackEvent_run. unfold logged in *.
  assert (∀ ok, interaction_calls [(GtagEvent a c l v, ok)] = 0%nat) as Hz.
  { intros ok. unfold interaction_calls. rewrite filter_cons_False; [done|].
    unfold is_interaction_call. simpl. rewrite bool_decide_eq_false_2 by done.
    by rewrite andb_false_r. }
  simpl. destruct (accepts _ _); simpl;
    rewrite interaction_calls_app, Hz, ?deliver_this, ?deliver_calls; lia.
Qed.

(** An interaction is reported and then logged; when the report throws,
    neither is counted. *)
Lemma logged_push (a c l : string) (v : option number) (i : interaction) :
  a ∈ interaction_actions → preserves logged (trackEvent a c l v;; push i).
Proof.
  intros Ha w Hw. rewrite bind_run, trackEvent_run. unfold logged in *.
  simpl. destruct (accepts _ _); simpl.
  - rewrite length_app, interaction_calls_app, deliver_this, deliver_calls. simpl.
    unfold interaction_calls at 2. rewrite filter_cons_True.
    + simpl; lia.
    + unfold is_interaction_call. simpl. by rewrite bool_decide_eq_true_2.
  - rewrite interaction_calls_app. unfold interaction_calls at 2.
    rewrite filter_cons_False; [simpl; lia|]. done.
Qed.

Lemma logged_update (f : tracker → tracker) :
  (∀ t, interactions (f t) = interactions t) → preserves logged (update f).
Proof. intros Hf w Hw. unfold logged in *. simpl. by rewrite Hf. Qed.

Lemma logged_console (line : string) : preserves logged (console_log line).
Proof. by intros w Hw. Qed.

Ltac logged_leaf :=
  first
    [ apply logged_push; compute_done
    | apply logged_trackEvent; compute_done
    | apply logged_update; done
    | apply logged_console ].

Lemma logged_dispatch (e : event) : preserves logged (dispatch e).
Proof.
  destruct e; simpl;
    try (eapply preserves_ext; [apply onLoad_run|]; simpl);
    unfold_handlers; repeat preserves_step logged_leaf.
Qed.

(** C1, as stated, fails: [trackConversion('resume_download', 1)] on a new
    tracker makes two calls of [trackEvent], and [totalInteractions] stays
    0. *)
Lemma trackConversion_calls_not_logged :
  ∃ s, getAnalyticsSummary 5 (run sample_conversion (constructor None 0)) =
         (Return s, run sample_conversion (constructor None 0)) ∧
       length (calls (run sample_conversion (constructor None 0))) = 2%nat ∧
       totalInteractions s ≠
       length (calls (run sample_conversion (constructor None 0))).
Proof. eexists. split; [reflexivity|]. split; [reflexivity|]. discriminate. Qed.

(** C1 (amended).  After every session, with any sink,
    [getAnalyticsSummary().totalInteractions] is the number of calls of
    [trackEvent] that returned and carry one of the six interaction actions
    (navigation_click, social_click, project_click, cta_click, theme_change,
    section_view); the calls made by [trackConversion] and by the load,
    scroll, memory, long-task, error and unload listeners add no entry. *)
Theorem totalInteractions_counts_interaction_calls
    (g : sink) (t0 : Q) (es : list event) (now : Z) :
  let w := run es (constructor g t0) in
  ∃ s, getAnalyticsSummary now w = (Return s, w) ∧
       totalInteractions s = interaction_calls (calls w).
Proof.
  intros w. eexists. split; [reflexivity|]. simpl.
  apply (preserves_run logged es logged_dispatch). reflexivity.
Qed.

(** ** The summary *)

Lemma or_zero_Some (n : nat) : or_zero (Some n) = n.
Proof. by destruct n. Qed.

Lemma total_count_insert (m : gmap string nat) (k : string) (n : nat) :
  m !! k = None → total_count (<[k := n]> m) = (n + total_count m)%nat.
Proof.
  intros Hk. unfold total_count. rewrite map_fold_insert_L; [done| |done].
  intros; lia.
Qed.

(** One step of the loop of [getInteractionSummary] adds one to the sum. *)
Lemma total_count_bump (m : gmap string nat) (k : string) :
  total_count (<[k := (or_zero (m !! k) + 1)%nat]> m) = (total_count m + 1)%nat.
Proof.
  destruct (m !! k) as [n|] eqn:Hk.
  - rewrite or_zero_Some, <- insert_delete_eq.
    rewrite total_count_insert by apply lookup_delete_eq.
    assert (total_count m = (n + total_count (delete k m))%nat) as ->; [|lia].
    unfold total_count.
    apply (map_fold_delete_L (λ _ n acc, (n + acc)%nat) 0%nat k n m); [|done].
    intros; lia.
  - rewrite total_count_insert by done. simpl. lia.
Qed.

Lemma total_count_fold (log : list interaction) (m : gmap string nat) :
  total_count
    (fold_left
       (λ (summary : gmap string nat) i,
          <[interaction_type i :=
              (or_zero (summary !! interaction_type i) + 1)%nat]> summary)
       log m) = (total_count m + length log)%nat.
Proof.
  revert m. induction log as [|i log IH]; intros m; simpl.
  - lia.
  - rewrite IH, total_count_bump. lia.
Qed.

(** C10.  In every state of the tracker, the counts of
    [getAnalyticsSummary().interactionTypes] add up to
    [getAnalyticsSummary().totalInteractions]. *)
Theorem interactionTypes_sum (w : world) (now : Z) :
  ∃ s, getAnalyticsSummary now w = (Return s, w) ∧
       total_count (interactionTypes s) = totalInteractions s.
Proof.
  eexists. split; [reflexivity|]. simpl. unfold getInteractionSummary.
  rewrite total_count_fold. unfold total_count. by rewrite map_fold_empty.
Qed.

(** [getAnalyticsSummary] always returns and leaves the world as it was. *)
Lemma getAnalyticsSummary_pure (now : Z) (w : world) :
  ∃ s, getAnalyticsSummary now w = (Return s, w).
Proof. by eexists. Qed.

(** C8: the code departs from the specification.  [getAnalyticsSummary]
    changes nothing, but its [sessionDuration] is a reading of [Date.now()]
    minus the reading of [performance.now()] kept at construction.  A tracker
    built 50 ms after the time origin, when [Date.now()] read 1700000000050,
    and asked 1000 ms later answers 1700000001000, not 1000. *)
Theorem sessionDuration_mixes_clocks :
  (∀ g built asked,
     ∃ s, getAnalyticsSummary asked (constructor g built) =
            (Return s, constructor g built) ∧
          sessionDuration s = sub (of_Z asked) (Fin built)) ∧
  ∃ s, getAnalyticsSummary 1700000001050 (constructor None 50) =
         (Return s, constructor None 50) ∧
       sessionDuration s = of_Z 1700000001000 ∧
       sessionDuration s ≠ of_Z (1700000001050 - 1700000000050).
Proof.
  split.
  - intros g built asked. eexists. split; reflexivity.
  - eexists. split; [reflexivity|]. split; [reflexivity|]. discriminate.
Qed.

(** ** The sink *)

(** *** Two sinks that accept every event *)

Section Agreement.
Variables g1 g2 : sink.
Hypothesis quiet1 : quiet g1.
Hypothesis quiet2 : quiet g2.

Lemma agree_ret {A : Type} (a : A) : agree g1 g2 (mret a).
Proof. by intros w1 w2 H. Qed.

Lemma agree_throw {A : Type} (e : exn) : agree g1 g2 (throw e : M A).
Proof. by intros w1 w2 H. Qed.

Lemma agree_bind {A B : Type} (c : M A) (f : A → M B) :
  agree g1 g2 c → (∀ a, agree g1 g2 (f a)) → agree g1 g2 (c ≫= f).
Proof.
  intros Hc Hf w1 w2 H. rewrite !bind_run.
  destruct (Hc w1 w2 H) as [Hr H'].
  destruct (c w1) as [[a1|e1] w1'], (c w2) as [[a2|e2] w2'];
    simpl in *; try discriminate Hr.
  - injection Hr as ->. by apply Hf.
  - by injection Hr as ->.
Qed.

Lemma agree_forEach {A : Type} (xs : list A) (body : A → M unit) :
  (∀ x, agree g1 g2 (body x)) → agree g1 g2 (forEach xs body).
Proof.
  intros Hbody. induction xs as [|x xs IH]; simpl.
  - apply agree_ret.
  - apply agree_bind; [apply Hbody | intros _; apply IH].
Qed.

Lemma agree_gets {A : Type} (f : tracker → A) :
  agree g1 g2 (gets (λ w, f (this w))).
Proof. intros w1 w2 H. simpl. split; [|done]. by destruct H as (_&_&->&_). Qed.

Lemma agree_update (f : tracker → tracker) : agree g1 g2 (update f).
Proof.
  intros w1 w2 (?&?&Ht&?&?). simpl. split; [done|].
  unfold alike. simpl. by rewrite Ht.
Qed.

Lemma agree_console (line : string) : agree g1 g2 (console_log line).
Proof.
  intros w1 w2 (?&?&?&Hc&?). simpl. split; [done|].
  unfold alike. simpl. by rewrite Hc.
Qed.

(** Both sinks let the call return; the tracker does not see which one took
    the event. *)
Lemma agree_trackEvent (a c l : string) (v : option number) :
  agree g1 g2 (trackEvent a c l v).
Proof.
  intros w1 w2 (H1&H2&Ht&Hl&Hc). rewrite !trackEvent_run. simpl.
  rewrite H1, H2, quiet1, quiet2. split; [done|].
  unfold alike. simpl.
  by rewrite !deliver_gtag, !deliver_this, !deliver_console, !deliver_calls, Hc.
Qed.

Ltac agree_step :=
  first
    [ apply agree_trackEvent
    | apply agree_update
    | apply agree_console
    | apply agree_ret
    | apply agree_throw
    | apply agree_gets
    | apply (agree_gets (λ t, t))
    | apply agree_forEach; intros ?
    | apply agree_bind; [|intros ?]
    | match goal with
      | |- agree _ _ (if ?b then _ else _) => destruct b
      | |- agree _ _ (match ?x with _ => _ end) => destruct x
      end ].

Lemma agree_dispatch (e : event) : agree g1 g2 (dispatch e).
Proof.
  destruct e; simpl; unfold onLoad, push; unfold_handlers; repeat agree_step.
Qed.

Lemma agree_run (es : list event) (w1 w2 : world) :
  alike g1 g2 w1 w2 →
  outcomes es w1 = outcomes es w2 ∧ alike g1 g2 (run es w1) (run es w2).
Proof.
  revert w1 w2. induction es as [|e es IH]; intros w1 w2 H; simpl.
  - done.
  - destruct (agree_dispatch e w1 w2 H) as [Hr H'].
    destruct (dispatch e w1) as [r1 w1'], (dispatch e w2) as [r2 w2'].
    simpl in *. destruct (IH _ _ H') as [Ho Ha]. split; [|done].
    by rewrite Hr, Ho.
Qed.

End Agreement.

(** *** The absent sink *)

Lemma silent_ret {A : Type} (a : A) : silent (mret a).
Proof. by intros w H. Qed.

Lemma silent_throw {A : Type} : silent (throw TypeError : M A).
Proof. by intros w H. Qed.

Lemma silent_gets {A : Type} (f : world → A) : silent (gets f).
Proof. by intros w H. Qed.

Lemma silent_bind {A B : Type} (c : M A) (f : A → M B) :
  silent c → (∀ a, silent (f a)) → silent (c ≫= f).
Proof.
  intros Hc Hf w H. rewrite bind_run. destruct (Hc w H) as [H' Hr].
  destruct (c w) as [[a|e] w']; simpl in *.
  - by apply Hf.
  - split; [done|]. intros [= ->]. by apply Hr.
Qed.

Lemma silent_forEach {A : Type} (xs : list A) (body : A → M unit) :
  (∀ x, silent (body x)) → silent (forEach xs body).
Proof.
  intros Hbody. induction xs as [|x xs IH]; simpl.
  - apply silent_ret.
  - apply silent_bind; [apply Hbody | intros _; apply IH].
Qed.

Lemma silent_update (f : tracker → tracker) : silent (update f).
Proof. by intros w H. Qed.

Lemma silent_console (line : string) : silent (console_log line).
Proof. by intros w H. Qed.

Lemma silent_trackEvent (a c l : string) (v : option number) :
  silent (trackEvent a c l v).
Proof. intros w [Hg Hs]. by rewrite trackEvent_absent. Qed.

Ltac silent_step :=
  first
    [ apply silent_trackEvent
    | apply silent_update
    | apply silent_console
    | apply silent_ret
    | apply silent_throw
    | apply silent_gets
    | apply silent_forEach; intros ?
    | apply silent_bind; [|intros ?]
    | match goal with
      | |- silent (if ?b then _ else _) => destruct b
      | |- silent (match ?x with _ => _ end) => destruct x
      end ].

Lemma silent_dispatch (e : event) : silent (dispatch e).
Proof.
  destruct e; simpl; unfold onLoad, push; unfold_handlers; repeat silent_step.
Qed.

Lemma silent_run (es : list event) (w : world) :
  unheard w → unheard (run es w) ∧ Throw SinkError ∉ outcomes es w.
Proof.
  revert w. induction es as [|e es IH]; intros w H; simpl.
  - split; [done|]. apply not_elem_of_nil.
  - destruct (silent_dispatch e w H) as [H' Hr].
    destruct (dispatch e w) as [r w']. simpl in *.
    destruct (IH w' H') as [Hu Ho]. split; [done|].
    rewrite elem_of_cons. intros [Heq|Hin]; [by apply Hr | by apply Ho].
Qed.

(** C6.  Without a sink every call of [trackEvent] returns and changes
    nothing but the trace of calls, so that, over a whole session, no handler
    throws because of the sink, nothing is sent, every handler ends as it
    does with a sink that takes every event, and the tracker ends in the same
    state. *)
Theorem absent_sink_noop (f : gtag_event → bool) (es : list event) (t0 : Q) :
  (∀ ev, f ev = false) →
  let absent := constructor None t0 in
  let present := constructor (Some f) t0 in
  outcomes es absent = outcomes es present ∧
  (Throw SinkError ∉ outcomes es absent) ∧
  this (run es absent) = this (run es present) ∧
  sent (run es absent) = [] ∧
  ∀ a c l v,
    trackEvent a c l v (run es absent) =
    (Return (), entered (GtagEvent a c l v) true (run es absent)).
Proof.
  intros Hf absent present.
  assert (alike None (Some f) absent present) as Ha by done.
  assert (quiet (Some f)) as Hq. { intros ev. simpl. by rewrite Hf. }
  destruct (agree_run None (Some f) (λ _, eq_refl) Hq es _ _ Ha)
    as [Ho (_&_&Ht&_)].
  destruct (silent_run es absent) as [[Hg Hs] Hn]; [done|].
  repeat split; try done.
  intros a c l v. by apply trackEvent_absent.
Qed.

Lemma absent_sink_noop_witness :
  (∀ ev, accepting ev = false) ∧
  outcomes sample_session (constructor None 0) =
    outcomes sample_session (constructor (Some accepting) 0) ∧
  (Throw SinkError ∉ outcomes sample_session (constructor None 0)) ∧
  this (run sample_session (constructor None 0)) =
    this (run sample_session (constructor (Some accepting) 0)) ∧
  sent (run sample_session (constructor None 0)) = [] ∧
  ∀ a c l v,
    trackEvent a c l v (run sample_session (constructor None 0)) =
    (Return (),
     entered (GtagEvent a c l v) true (run sample_session (constructor None 0))).
Proof.
  split; [reflexivity|].
  apply (absent_sink_noop accepting sample_session 0). reflexivity.
Defined.

(** ** The registry of section views *)


Section Registry.
Variable g : sink.
Hypothesis quiet_g : quiet g.











End Registry.





(** ** The scroll depth *)

(** C4, as stated, fails: nothing clamps the percentage.  Scrolled by 116 px
    over a range of 100 px, the running maximum is 116. *)
Lemma maxScroll_exceeds_100 :
  maxScroll (this (run sample_overscroll (constructor None 0))) = of_Z 116 ∧
  le (maxScroll (this (run sample_overscroll (constructor None 0)))) (of_Z 100)
    ≠ true.
Proof. split; [reflexivity|discriminate]. Qed.

Lemma range_compare (h ih : Z) :
  (Qred (inject_Z h - inject_Z ih) ?= 0)%Q = (h ?= ih)%Z.
Proof.
  rewrite (Qred_correct (inject_Z h - inject_Z ih)).
  unfold Qcompare, Qminus, Qplus, Qopp, inject_Z. simpl.
  rewrite !Z.mul_1_r.
  destruct (Z.compare_spec h ih) as [->|Hlt|Hgt].
  - apply Z.compare_eq_iff. lia.
  - apply Z.compare_lt_iff. lia.
  - apply Z.compare_gt_iff. lia.
Qed.

(** C3: the code departs from the specification.  A scroll event on a page
    whose body is as high as the window divides by zero: whatever the
    offset, the percentage is NaN or infinite.  On a new tracker the value
    then sent as [scroll_depth] is NaN when the offset is 0 and Infinity when
    it is 120. *)
Theorem scroll_depth_zero_range_fault :
  sent (run [Scroll 0 800 800; ScrollTimeout] (constructor (Some accepting) 0)) =
    [GtagEvent "scroll_depth" "User Behavior" "Max Scroll Percentage" (Some NaN)] ∧
  sent (run [Scroll 120 800 800; ScrollTimeout] (constructor (Some accepting) 0)) =
    [GtagEvent "scroll_depth" "User Behavior" "Max Scroll Percentage"
       (Some (Infinity false))] ∧
  ∀ scrollY height,
    scrollPercent scrollY height height = NaN ∨
    ∃ negative, scrollPercent scrollY height height = Infinity negative.
Proof.
  split; [reflexivity|]. split; [reflexivity|].
  intros y h. unfold scrollPercent, of_Z, sub, div.
  rewrite range_compare, Z.compare_refl.
  destruct (y ?= 0)%Q; simpl; eauto.
Qed.

(** With a range other than zero the percentage is an integer. *)
Lemma scrollPercent_finite (y : Q) (h ih : Z) :
  h ≠ ih → scrollPercent y h ih = of_Z (percent y h ih).
Proof.
  intros Hne. unfold scrollPercent, of_Z, sub, div. rewrite range_compare.
  destruct (Z.compare_spec h ih) as [->|Hlt|Hgt]; done.
Qed.

Lemma percent_range (y : Q) (h ih : Z) :
  (ih < h)%Z → (0 <= y)%Q → (y <= inject_Z (h - ih))%Q →
  (0 ≤ percent y h ih ≤ 100)%Z.
Proof.
  intros Hlt H0 Hy. unfold percent.
  set (d := Qred (inject_Z h - inject_Z ih)).
  assert (d == inject_Z (h - ih))%Q as Hd.
  { unfold d. rewrite Qred_correct. unfold Z.sub.
    by rewrite inject_Z_plus, inject_Z_opp. }
  assert (0 < d)%Q as Hpos.
  { rewrite Hd. replace 0%Q with (inject_Z 0) by done. rewrite <- Zlt_Qlt. lia. }
  set (q := Qred (Qred (y / d) * inject_Z 100)).
  assert (q == y / d * 100)%Q as Hq.
  { unfold q. by rewrite !Qred_correct. }
  assert (0 <= y / d)%Q as Hlo.
  { apply Qle_shift_div_l; [done|]. by rewrite Qmult_0_l. }
  assert (y / d <= 1)%Q as Hhi.
  { apply Qle_shift_div_r; [done|]. by rewrite Qmult_1_l, Hd. }
  split.
  - change 0%Z with (Qfloor 0). apply Qfloor_resp_le. rewrite Hq.
    apply Qle_trans with (0 * 100 + 0)%Q; [done|].
    apply Qplus_le_compat; [|done]. by apply Qmult_le_compat_r.
  - change 100%Z with (Qfloor (100 * 1 + (1 # 2))). apply Qfloor_resp_le. rewrite Hq.
    apply Qplus_le_compat; [|apply Qle_refl].
    rewrite (Qmult_comm (y / d)). by apply Qmult_le_l.
Qed.

Lemma max_of_Z (m k : Z) : max (of_Z m) (of_Z k) = of_Z (Z.max m k).
Proof.
  unfold max, of_Z, Qle_bool, inject_Z. simpl. rewrite !Z.mul_1_r.
  destruct (Z.leb_spec m k).
  - by rewrite Z.max_r by lia.
  - by rewrite Z.max_l by lia.
Qed.

Lemma le_of_Z (m k : Z) : le (of_Z m) (of_Z k) = (m <=? k)%Z.
Proof. unfold le, of_Z, Qle_bool, inject_Z. simpl. by rewrite !Z.mul_1_r. Qed.

Section Keeps.
Context {X : Type} (field : tracker → X) (x : X).

Lemma keeps_trackEvent (a c l : string) (v : option number) :
  preserves (keeps field x) (trackEvent a c l v).
Proof.
  intros w Hw. rewrite trackEvent_run. unfold keeps in *. simpl.
  destruct (accepts _ _); by world_simpl.
Qed.

Lemma keeps_update (f : tracker → tracker) :
  (∀ t, field (f t) = field t) → preserves (keeps field x) (update f).
Proof. intros Hf w Hw. unfold keeps in *. simpl. by rewrite Hf. Qed.

Lemma keeps_console (line : string) :
  preserves (keeps field x) (console_log line).
Proof. by intros w Hw. Qed.

End Keeps.

Ltac keeps_leaf :=
  first
    [ apply keeps_trackEvent
    | apply keeps_update; done
    | apply keeps_console ].

(** Only the scroll listener writes [maxScroll]. *)
Lemma maxScroll_kept (e : event) (m : number) :
  (∀ y h ih, e ≠ Scroll y h ih) → preserves (keeps maxScroll m) (dispatch e).
Proof.
  intros He. destruct e; simpl; unfold onLoad, push; unfold_handlers;
    repeat preserves_step keeps_leaf.
  by destruct (He scrollY scrollHeight innerHeight).
Qed.

Lemma maxScroll_dispatch (e : event) (w : world) (m : Z) :
  maxScroll (this w) = of_Z m → scrollable e →
  ∃ m', maxScroll (this (snd (dispatch e w))) = of_Z m' ∧ (m ≤ m')%Z ∧
        (within_range e → (m' ≤ Z.max m 100)%Z).
Proof.
  intros Hm He.
  destruct e;
    try (exists m; split; [by apply (maxScroll_kept _ (of_Z m))|lia]).
  simpl in He. simpl. rewrite Hm, scrollPercent_finite, max_of_Z by done.
  eexists. split; [done|]. split; [lia|].
  intros (Hlt & H0 & Hy).
  pose proof (percent_range scrollY scrollHeight innerHeight Hlt H0 Hy). lia.
Qed.

Lemma maxScroll_run (es : list event) (w : world) (m : Z) :
  maxScroll (this w) = of_Z m → Forall scrollable es →
  ∃ m', maxScroll (this (run es w)) = of_Z m' ∧ (m ≤ m')%Z ∧
        (Forall within_range es → (m' ≤ Z.max m 100)%Z).
Proof.
  revert w m. induction es as [|e es IH]; intros w m Hm Hes.
  - exists m. split; [done|]. lia.
  - apply Forall_cons in Hes as [He Hes]. simpl.
    destruct (maxScroll_dispatch e w m Hm He) as (m1 & Hm1 & Hle1 & Hr1).
    destruct (IH _ _ Hm1 Hes) as (m2 & Hm2 & Hle2 & Hr2).
    exists m2. split; [done|]. split; [lia|].
    intros [Hw Hws]%Forall_cons. specialize (Hr1 Hw). specialize (Hr2 Hws). lia.
Qed.

(** C4 (amended).  In a session whose scroll events all have a scrollable
    range other than zero, the running maximum is never below 0 and never
    decreases; when moreover every scroll event has a positive range and an
    offset between 0 and that range, it never exceeds 100. *)
Theorem maxScroll_monotone_bounded (g : sink) (t0 : Q) (es1 es2 : list event) :
  Forall scrollable (es1 ++ es2) →
  let m1 := maxScroll (this (run es1 (constructor g t0))) in
  let m2 := maxScroll (this (run (es1 ++ es2) (constructor g t0))) in
  le (of_Z 0) m1 = true ∧ le m1 m2 = true ∧
  (Forall within_range (es1 ++ es2) → le m2 (of_Z 100) = true).
Proof.
  intros [H1 H2]%Forall_app m1 m2. unfold m1, m2. rewrite run_app.
  destruct (maxScroll_run es1 (constructor g t0) 0 eq_refl H1)
    as (k1 & Hm1 & Hk1 & Hr1).
  destruct (maxScroll_run es2 _ k1 Hm1 H2) as (k2 & Hm2 & Hk2 & Hr2).
  rewrite Hm1, Hm2, !le_of_Z. split; [lia|]. split; [lia|].
  intros [Hw1 Hw2]%Forall_app. specialize (Hr1 Hw1). specialize (Hr2 Hw2). lia.
Qed.

Lemma maxScroll_monotone_bounded_witness :
  Forall scrollable (sample_scrolls ++ sample_more_scrolls) ∧
  Forall within_range (sample_scrolls ++ sample_more_scrolls) ∧
  le (of_Z 0) (maxScroll (this (run sample_scrolls (constructor None 0)))) = true ∧
  le (maxScroll (this (run sample_scrolls (constructor None 0))))
     (maxScroll (this (run (sample_scrolls ++ sample_more_scrolls)
                         (constructor None 0)))) = true ∧
  le (maxScroll (this (run (sample_scrolls ++ sample_more_scrolls)
                         (constructor None 0)))) (of_Z 100) = true.
Proof.
  assert (Forall scrollable (sample_scrolls ++ sample_more_scrolls)) as Hs.
  { repeat constructor; simpl; discriminate. }
  assert (Forall within_range (sample_scrolls ++ sample_more_scrolls)) as Hr.
  { repeat constructor; simpl; discriminate. }
  split; [exact Hs|]. split; [exact Hr|].
  destruct (maxScroll_monotone_bounded None 0 sample_scrolls sample_more_scrolls Hs)
    as (H0 & Hmono & H100).
  split; [exact H0|]. split; [exact Hmono|]. exact (H100 Hr).
Defined.

(** ** Conversions *)

(** C5, as stated, fails: on a sink that throws,
    [trackConversion('resume_download', 1)] makes one call of [trackEvent],
    which throws; the exception leaves [trackConversion], the second event
    is never reported and the sink has received nothing. *)
Lemma trackConversion_stops_when_sink_throws :
  fst (trackConversion "resume_download" (Some (of_Z 1))
         (constructor (Some rejecting) 0)) = Throw SinkError ∧
  calls (snd (trackConversion "resume_download" (Some (of_Z 1))
                (constructor (Some rejecting) 0))) =
    [(GtagEvent "conversion" "Conversion" "resume_download" (Some (of_Z 1)),
      false)] ∧
  sent (snd (trackConversion "resume_download" (Some (of_Z 1))
               (constructor (Some rejecting) 0))) = [].
Proof. vm_compute. repeat split. Qed.

(** C5.  On a sink that is absent or takes the two events,
    [trackConversion('resume_download', 1)] returns after exactly two calls
    of [trackEvent], the generic conversion event and then the
    resume_download event with value 1, and leaves the tracker as it was;
    for a kind outside the three recognized ones [trackConversion] is,
    whatever the sink does, the single call that reports the generic
    conversion event. *)
Theorem trackConversion_events (w : world) (type : string) (value : option number) :
  let generic :=
    GtagEvent "conversion" "Conversion" "resume_download" (Some (of_Z 1)) in
  let specific :=
    GtagEvent "resume_download" "Lead Generation" "Resume Download" (Some (of_Z 1)) in
  type ∉ recognized →
  (accepts (gtag w) generic = true → accepts (gtag w) specific = true →
   let r := trackConversion "resume_download" (Some (of_Z 1)) w in
   fst r = Return () ∧
   calls (snd r) = (calls w ++ [(generic, true); (specific, true)])%list ∧
   sent (snd r) =
     (sent w ++ match gtag w with
                | Some _ => [generic; specific]
                | None => []
                end)%list ∧
   this (snd r) = this w) ∧
  trackConversion type value w = trackEvent "conversion" "Conversion" type value w.
Proof.
  intros generic specific Htype. split.
  - intros Hg Hs. unfold trackConversion. simpl. rewrite bind_run, trackEvent_run. simpl.
    fold generic. rewrite Hg. rewrite trackEvent_run. world_simpl.
    fold specific. rewrite Hs. world_simpl.
    split; [done|]. rewrite deliver_calls, deliver_this.
    split; [by rewrite <- app_assoc|]. split; [|done].
    unfold deliver. simpl.
    destruct (gtag w) eqn:Hw; simpl; rewrite Hw; simpl;
      [by rewrite <- app_assoc | by rewrite app_nil_r].
  - unfold trackConversion, recognized in *.
    rewrite !elem_of_cons, elem_of_nil in Htype.
    destruct (String.eqb_spec type "contact_attempt") as [->|H1]; [tauto|].
    destruct (String.eqb_spec type "project_engagement") as [->|H2]; [tauto|].
    destruct (String.eqb_spec type "resume_download") as [->|H3]; [tauto|].
    apply bind_ret_unit.
Qed.

Lemma trackConversion_events_witness :
  accepts (Some accepting)
    (GtagEvent "conversion" "Conversion" "resume_download" (Some (of_Z 1))) = true ∧
  accepts (Some accepting)
    (GtagEvent "resume_download" "Lead Generation" "Resume Download"
       (Some (of_Z 1))) = true ∧
  ("newsletter" ∉ recognized) ∧
  calls (snd (trackConversion "resume_download" (Some (of_Z 1))
                (constructor (Some accepting) 0))) =
    [(GtagEvent "conversion" "Conversion" "resume_download" (Some (of_Z 1)), true);
     (GtagEvent "resume_download" "Lead Generation" "Resume Download"
        (Some (of_Z 1)), true)] ∧
  trackConversion "newsletter" None (constructor (Some accepting) 0) =
    trackEvent "conversion" "Conversion" "newsletter" None
      (constructor (Some accepting) 0).
Proof.
  assert ("newsletter" ∉ recognized) as Hn by compute_done.
  split; [reflexivity|]. split; [reflexivity|]. split; [exact Hn|].
  destruct (trackConversion_events (constructor (Some accepting) 0) "newsletter" None
              Hn) as [Hfirst Hother].
  destruct (Hfirst eq_refl eq_refl) as (_ & Hcalls & _).
  split; [exact Hcalls | exact Hother].
Defined.

(** ** The load listener *)

(** The loop over the stored metrics, on a sink that is absent or takes
    every event: it reports the positive ones, in order. *)
Lemma reportMetrics_run (ms : list (string * number)) (w : world) :
  quiet (gtag w) →
  let r :=
    forEach ms (λ '(metric, value),
      if gt value (of_Z 0)
      then trackEvent metric "Performance" metric (Some value)
      else mret ()) w in
  fst r = Return () ∧
  calls (snd r) = (calls w ++ (report <$> filter positive ms))%list ∧
  this (snd r) = this w.
Proof.
  revert w. induction ms as [|[metric value] ms IH]; intros w Hq; simpl.
  - by rewrite app_nil_r.
  - rewrite bind_run. unfold positive at 1. simpl.
    destruct (gt value (of_Z 0)) eqn:Hpos.
    + rewrite trackEvent_run. simpl. rewrite Hq.
      destruct (IH (entered (GtagEvent metric "Performance" metric (Some value)) true
                      (deliver (GtagEvent metric "Performance" metric (Some value)) w)))
        as (Hr & Hc & Ht).
      { simpl. by rewrite deliver_gtag. }
      split; [done|]. rewrite Hc, Ht. world_simpl.
      rewrite filter_cons_True by done. by rewrite <- app_assoc.
    + simpl. rewrite filter_cons_False by (unfold positive; simpl; congruence).
      by apply IH.
Qed.

(** C7, as stated, fails: on a sink that throws, the load listener ends at
    the report of the load time, before it reads the navigation entry.  The
    metric [domContentLoaded], which would be 200, is neither stored nor
    reported, although it is positive. *)
Lemma load_metrics_lost_when_sink_throws :
  head (navigation sample_entries) = Some sample_timing ∧
  captureMetrics sample_timing sample_entries !! 0%nat =
    Some ("domContentLoaded", of_Z 200) ∧
  positive ("domContentLoaded", of_Z 200) ∧
  fst (onLoad 900 (Some sample_entries) (constructor (Some rejecting) 50)) =
    Throw SinkError ∧
  performanceMetrics
    (this (snd (onLoad 900 (Some sample_entries) (constructor (Some rejecting) 50)))) =
    [] ∧
  reported (constructor (Some rejecting) 50)
    (snd (onLoad 900 (Some sample_entries) (constructor (Some rejecting) 50))) =
    [(GtagEvent "page_load_time" "Performance" "Load Time" (Some (of_Z 850)),
      false)].
Proof. vm_compute. repeat split. Qed.

(** C7.  When the page has a navigation entry and the sink is absent or
    takes every event, the load listener stores the four metrics and, after
    the load time, reports exactly those that are greater than 0, in their
    order: a metric is reported if and only if it is positive.  With
    [domContentLoadedEventStart] 1000 and [domContentLoadedEventEnd] 1200
    the stored [domContentLoaded] is 200. *)
Theorem load_reports_positive_metrics
    (w : world) (now : Q) (p : perfEntries) (nav : navTiming) :
  quiet (gtag w) → head (navigation p) = Some nav →
  let w' := snd (onLoad now (Some p) w) in
  performanceMetrics (this w') = captureMetrics nav p ∧
  (∃ loadTime,
     reported w w' =
     (GtagEvent "page_load_time" "Performance" "Load Time" (Some loadTime), true)
       :: (report <$> filter positive (captureMetrics nav p))) ∧
  (∀ mv, mv ∈ captureMetrics nav p → report mv ∈ reported w w' ↔ positive mv) ∧
  (∀ loadStart loadEnd,
     captureMetrics (NavTiming 1000 1200 loadStart loadEnd) p !! 0%nat =
     Some ("domContentLoaded", of_Z 200)).
Proof.
  intros Hq Hnav w'.
  assert (∃ loadTime,
            performanceMetrics (this w') = captureMetrics nav p ∧
            reported w w' =
            (GtagEvent "page_load_time" "Performance" "Load Time" (Some loadTime), true)
              :: (report <$> filter positive (captureMetrics nav p)))
    as (loadTime & Hm & Hrep).
  { unfold w', reported. rewrite onLoad_run, Hnav.
    generalize (captureMetrics nav p) as ms. intros ms.
    rewrite bind_run. simpl.
    rewrite bind_run, trackEvent_run. simpl. rewrite Hq.
    rewrite bind_run. simpl.
    match goal with
    | |- context [forEach ?ms ?body ?w1] =>
        destruct (reportMetrics_run ms w1) as (Hr & Hc & Ht)
    end.
    { simpl. by rewrite deliver_gtag. }
    eexists. rewrite Hc, Ht. world_simpl. split; [done|].
    by rewrite <- app_assoc, drop_app_length. }
  split; [done|]. split; [by exists loadTime|]. split; [|done].
  intros mv Hmv. rewrite Hrep, elem_of_cons, list_elem_of_fmap. split.
  - intros [Heq|(mv' & Heq & Hin)].
    + unfold report in Heq. injection Heq as H1 H2 _. congruence.
    + apply list_elem_of_filter in Hin as [Hpos _].
      unfold report in Heq. destruct mv, mv'. simpl in Heq.
      by simplify_eq.
  - intros Hpos. right. exists mv. split; [done|].
    by apply list_elem_of_filter.
Qed.

Lemma load_reports_positive_metrics_witness :
  quiet None ∧ head (navigation sample_entries) = Some sample_timing ∧
  performanceMetrics (this (snd (onLoad 900 (Some sample_entries) (constructor None 50)))) =
    [("domContentLoaded", of_Z 200); ("loadComplete", of_Z (-1500));
     ("firstPaint", of_Z 300); ("firstContentfulPaint", of_Z 0)] ∧
  report ("domContentLoaded", of_Z 200) ∈
    reported (constructor None 50)
      (snd (onLoad 900 (Some sample_entries) (constructor None 50))) ∧
  ¬ report ("firstContentfulPaint", of_Z 0) ∈
    reported (constructor None 50)
      (snd (onLoad 900 (Some sample_entries) (constructor None 50))).
Proof.
  assert (quiet None) as Hq. { intros ev. reflexivity. }
  split; [exact Hq|]. split; [reflexivity|].
  destruct (load_reports_positive_metrics (constructor None 50) 900 sample_entries
              sample_timing Hq eq_refl) as (Hm & _ & Hiff & _).
  split; [exact Hm|]. split.
  - apply Hiff; [|reflexivity]. apply list_elem_of_lookup. by exists 0%nat.
  - intros Hin. apply Hiff in Hin; [discriminate Hin|].
    apply list_elem_of_lookup. by exists 3%nat.
Defined.

(** ** The contact form *)

Section ContactForm.
Import ContactForm.

Lemma resetButton_ready (p : page) : ready (resetButton p).
Proof.
  unfold ready, hidden, resetButton, add, remove. simpl.
  split; [done|]. rewrite elem_of_difference, elem_of_union, !elem_of_singleton.
  split; [tauto|by right].
Qed.

Lemma submitSettled_ready (s : settlement) (p : page) : ready (submitSettled s p).
Proof. apply resetButton_ready. Qed.

Lemma shown_remove (classList : gset string) : ¬ hidden (remove "d-none" classList).
Proof. unfold hidden, remove. rewrite elem_of_difference, elem_of_singleton. tauto. Qed.

Lemma hidden_add (classList : gset string) : hidden (add "d-none" classList).
Proof. unfold hidden, add. rewrite elem_of_union, elem_of_singleton. by right. Qed.

(** C9.  However the awaited promise settles, and in whatever state the page
    is by then, the listener leaves the submit button enabled with its text
    shown and its spinner hidden; after a rejection the error message is
    shown.  For a form that passes validation the whole listener ends that
    way, and a draw of [Math.random()] of at most 0.1, which rejects, leaves
    the error message shown and the success message hidden. *)
Theorem submit_failure_restores_button
    (validateForm : list field → bool * list field) (random : Q)
    (s : settlement) (p : page) :
  fst (validateForm (formInputs p)) = true →
  let settled := submitSettled s p in
  let after := onSubmit validateForm random p in
  ready settled ∧
  match s with
  | Rejected _ => ¬ hidden (errorMessage settled)
  | Resolved _ _ => ¬ hidden (successMessage settled)
  end ∧
  ready after ∧
  if Qle_bool random (1 # 10)
  then ¬ hidden (errorMessage after) ∧ hidden (successMessage after)
  else ¬ hidden (successMessage after) ∧ hidden (errorMessage after).
Proof.
  intros Hvalid settled after.
  split; [apply submitSettled_ready|]. split.
  { unfold settled. destruct s; simpl; apply shown_remove. }
  unfold after, onSubmit, submitStart.
  destruct (validateForm (formInputs p)) as [isValid inputs]. simpl in Hvalid.
  subst isValid. simpl. split; [apply submitSettled_ready|].
  unfold simulateFormSubmission.
  destruct (Qle_bool random (1 # 10)); simpl;
    (split; [apply shown_remove | apply hidden_add]).
Qed.

Lemma submit_failure_restores_button_witness :
  fst (sample_validateForm (formInputs sample_page)) = true ∧
  ready (onSubmit sample_validateForm (1 # 20) sample_page) ∧
  ¬ hidden (errorMessage (onSubmit sample_validateForm (1 # 20) sample_page)) ∧
  hidden (successMessage (onSubmit sample_validateForm (1 # 20) sample_page)).
Proof.
  split; [reflexivity|].
  destruct (submit_failure_restores_button sample_validateForm (1 # 20)
              (Rejected "Simulated network error") sample_page eq_refl)
    as (_ & _ & Hready & Herr & Hok).
  split; [exact Hready|]. split; [exact Herr | exact Hok].
Defined.

End ContactForm.

(** ** The session as a whole *)

(** *** The log, the sink and the trace only grow *)

Lemma deliver_sent (ev : gtag_event) (w : world) :
  sent w `prefix_of` sent (deliver ev w).
Proof.
  unfold deliver. destruct (gtag w); simpl; [|done]. by apply prefix_app_r.
Qed.

Lemma continues_trackEvent w0 (a c l : string) (v : option number) :
  preserves (continues w0) (trackEvent a c l v).
Proof.
  intros w (Hi & Hs & Hc & Ht). rewrite trackEvent_run. simpl.
  destruct (accepts _ _); unfold continues; world_simpl.
  - repeat split; [done| |by apply prefix_app_r|done].
    etrans; [exact Hs|apply deliver_sent].
  - repeat split; [done|done|by apply prefix_app_r|done].
Qed.

Lemma continues_push w0 (i : interaction) : preserves (continues w0) (push i).
Proof.
  intros w (Hi & Hs & Hc & Ht). unfold continues. simpl.
  repeat split; [by apply prefix_app_r|done..].
Qed.

Lemma continues_update w0 (f : tracker → tracker) :
  (∀ t, interactions (f t) = interactions t) →
  (∀ t, startTime (f t) = startTime t) →
  preserves (continues w0) (update f).
Proof.
  intros Hf Hg w (Hi & Hs & Hc & Ht). unfold continues. simpl.
  by rewrite Hf, Hg.
Qed.

Lemma continues_console w0 (line : string) :
  preserves (continues w0) (console_log line).
Proof. by intros w H. Qed.

Ltac continues_leaf :=
  first
    [ apply continues_trackEvent
    | apply continues_push
    | apply continues_update; done
    | apply continues_console ].

Lemma continues_dispatch w0 (e : event) : preserves (continues w0) (dispatch e).
Proof.
  destruct e; simpl; unfold onLoad; unfold_handlers;
    repeat preserves_step continues_leaf.
Qed.

(** X1.  Over every session, from every state of the tracker and with every
    sink (absent, accepting or throwing), the interaction log, the list of
    events that the sink has received and the trace of the calls of
    [trackEvent] only grow at their ends: what was there stays, in the same
    order; [startTime] is never written again. *)
Theorem session_append_only (es : list event) (w : world) :
  continues w (run es w).
Proof.
  apply (preserves_run (continues w) es); [apply continues_dispatch|].
  by unfold continues.
Qed.

(** *** The registry keeps the first timestamp *)

Lemma remembers_trackEvent m0 (a c l : string) (v : option number) :
  preserves (remembers m0) (trackEvent a c l v).
Proof.
  intros w Hw. rewrite trackEvent_run. unfold remembers in *. simpl.
  destruct (accepts _ _); by world_simpl.
Qed.

Lemma remembers_update m0 (f : tracker → tracker) :
  (∀ t, sectionViews (f t) = sectionViews t) →
  preserves (remembers m0) (update f).
Proof. intros Hf w Hw. unfold remembers in *. simpl. by rewrite Hf. Qed.

Lemma remembers_console m0 (line : string) :
  preserves (remembers m0) (console_log line).
Proof. by intros w H. Qed.

(** The observer writes a section only when the registry does not have it. *)
Lemma remembers_observeEntry m0 (now : Z) (entry : observerEntry) :
  preserves (remembers m0) (observeEntry now entry).
Proof.
  intros w Hw. unfold observeEntry.
  destruct (isIntersecting entry && _); [|done].
  rewrite bind_run. simpl.
  destruct (has (sectionViews (this w)) (target_id entry)) eqn:Hhas; [done|].
  simpl. rewrite bind_run. simpl.
  assert (remembers m0
            (with_this
               (λ t, set_sectionViews (<[target_id entry:=now]> (sectionViews t)) t) w))
    as Hw'.
  { unfold remembers in *. simpl. etrans; [exact Hw|].
    apply insert_subseteq. unfold has in Hhas.
    apply bool_decide_eq_false in Hhas. by apply eq_None_not_Some. }
  revert Hw'. generalize (with_this
    (λ t, set_sectionViews (<[target_id entry:=now]> (sectionViews t)) t) w).
  change (preserves (remembers m0)
            (trackEvent "section_view" "User Behavior" (target_id entry) None;;
             push (SectionView (target_id entry) now))).
  apply preserves_bind; [apply remembers_trackEvent|].
  intros _. by apply remembers_update.
Qed.

Ltac remembers_leaf :=
  first
    [ apply remembers_observeEntry
    | apply remembers_trackEvent
    | apply remembers_update; done
    | apply remembers_console ].

Lemma remembers_dispatch m0 (e : event) : preserves (remembers m0) (dispatch e).
Proof.
  destruct e; simpl;
    unfold onLoad, push, onNavClick, onSocialClick, onProjectClick, onCtaClick,
      onThemeClick, onScroll, onScrollTimeout, onIntersection,
      onMemoryInterval, onLongTasks, onError, onUnhandledRejection,
      onBeforeUnload, trackConversion, getAnalyticsSummary;
    repeat preserves_step remembers_leaf.
Qed.

(** X2.  Once the registry of section views holds a section with a
    timestamp, it holds that section with that timestamp for the rest of the
    session, whatever happens: no handler removes an entry or overwrites the
    time of the first view, also when the section is seen again. *)
Theorem registry_keeps_first_timestamp
    (es : list event) (w : world) (id : string) (t : Z) :
  sectionViews (this w) !! id = Some t →
  sectionViews (this (run es w)) !! id = Some t.
Proof.
  intros Hid.
  assert (remembers (sectionViews (this w)) (run es w)) as H.
  { apply (preserves_run _ es); [apply remembers_dispatch|]. by unfold remembers. }
  by apply (lookup_weaken _ _ _ _ Hid H).
Qed.

Lemma registry_keeps_first_timestamp_witness :
  sectionViews (this sample_seen) !! "about" = Some 5%Z ∧
  sectionViews (this (run sample_revisit sample_seen)) !! "about" = Some 5%Z.
Proof.
  split; [vm_compute; reflexivity|].
  apply registry_keeps_first_timestamp. vm_compute. reflexivity.
Defined.

(** *** Clicks *)

(** X3.  A click listener (navigation link, social link, project link,
    call-to-action button, theme toggle) either returns, and then it has
    added exactly one entry to the end of the log, of the type of the
    listener, or it throws, and then the log is as it was: the entry is
    written after the call of [trackEvent], so a click is lost from the log
    when the link has no [href], the project card has no title or the sink
    throws. *)
Theorem click_logs_one_entry_or_none (e : event) (ty : string) (w : world) :
  click_type e = Some ty →
  (fst (dispatch e w) = Return () ∧
   ∃ i, interactions (this (snd (dispatch e w))) =
          (interactions (this w) ++ [i])%list ∧
        interaction_type i = ty) ∨
  (∃ x, fst (dispatch e w) = Throw x ∧
        interactions (this (snd (dispatch e w))) = interactions (this w)).
Proof.
  intros Hty. destruct e; try discriminate Hty; injection Hty as <-; simpl.
  - unfold onNavClick. destruct href as [h|]; [|right; eexists; split; reflexivity].
    rewrite bind_run, trackEvent_run. simpl. destruct (accepts _ _).
    + left. world_simpl. split; [done|]. eexists. split; reflexivity.
    + right. world_simpl. eexists. split; reflexivity.
  - unfold onSocialClick. rewrite bind_run, trackEvent_run. simpl.
    destruct (accepts _ _).
    + left. world_simpl. split; [done|]. eexists. split; reflexivity.
    + right. world_simpl. eexists. split; reflexivity.
  - unfold onProjectClick. destruct title as [h|]; [|right; eexists; split; reflexivity].
    rewrite bind_run, trackEvent_run. simpl. destruct (accepts _ _).
    + left. world_simpl. split; [done|]. eexists. split; reflexivity.
    + right. world_simpl. eexists. split; reflexivity.
  - unfold onCtaClick. rewrite bind_run, trackEvent_run. simpl.
    destruct (accepts _ _).
    + left. world_simpl. split; [done|]. eexists. split; reflexivity.
    + right. world_simpl. eexists. split; reflexivity.
  - unfold onThemeClick. rewrite bind_run, trackEvent_run. simpl.
    destruct (accepts _ _).
    + left. world_simpl. split; [done|]. eexists. split; reflexivity.
    + right. world_simpl. eexists. split; reflexivity.
Qed.

Lemma click_logs_one_entry_or_none_witness :
  click_type sample_click = Some "theme" ∧
  length (interactions (this (snd (dispatch sample_click (constructor None 0)))))
    = 1%nat.
Proof.
  split; [reflexivity|].
  destruct (click_logs_one_entry_or_none sample_click "theme"
              (constructor None 0) eq_refl) as [[_ (i & -> & _)]|(x & Hx & _)].
  - reflexivity.
  - discriminate Hx.
Defined.

(** *** The counts of the summary *)

Lemma count_type_cons (ty : string) (i : interaction) (log : list interaction) :
  count_type ty (i :: log) =
  ((if decide (interaction_type i = ty) then 1 else 0) + count_type ty log)%nat.
Proof.
  unfold count_type. destruct (decide (interaction_type i = ty)).
  - by rewrite filter_cons_True.
  - by rewrite filter_cons_False.
Qed.

Lemma summary_fold_lookup (log : list interaction) (m : gmap string nat) (ty : string) :
  (∀ k, m !! k ≠ Some 0%nat) →
  fold_left
    (λ (summary : gmap string nat) i,
       <[interaction_type i :=
           (or_zero (summary !! interaction_type i) + 1)%nat]> summary)
    log m !! ty =
  match (or_zero (m !! ty) + count_type ty log)%nat with
  | O => None
  | n => Some n
  end.
Proof.
  revert m. induction log as [|i log IH]; intros m Hm; simpl.
  - unfold count_type. simpl. rewrite Nat.add_0_r.
    destruct (m !! ty) as [[|n]|] eqn:Hty; simpl; try done. by destruct (Hm ty).
  - rewrite IH.
    + rewrite count_type_cons, lookup_insert.
      destruct (decide (interaction_type i = ty)) as [->|Hne]; simpl.
      * generalize (or_zero (m !! ty)) (count_type ty log). intros a b.
        replace (a + 1)%nat with (S a) by lia.
        by replace (a + S b)%nat with (S a + b)%nat by lia.
      * done.
    + intros k. rewrite lookup_insert. destruct (decide _); [|apply Hm].
      intros [= H]. lia.
Qed.

(** X4.  The object that [getInteractionSummary] returns has, for every
    type, the number of entries of the log with that type, and no key at all
    for a type without entries (a count is never 0). *)
Theorem summary_counts_each_type (t : tracker) (ty : string) :
  getInteractionSummary t !! ty =
  match count_type ty (interactions t) with
  | O => None
  | n => Some n
  end.
Proof.
  unfold getInteractionSummary. rewrite summary_fold_lookup; [done|].
  intros k. by rewrite lookup_empty.
Qed.

(** *** A burst of scroll events *)

Lemma scrolls_run (es : list event) (w : world) :
  Forall is_scroll es → es ≠ [] →
  gtag (run es w) = gtag w ∧ sent (run es w) = sent w ∧
  calls (run es w) = calls w ∧ scrollTimeout (this (run es w)) = true.
Proof.
  intros Hes. revert w. induction Hes as [|e es He Hes IH]; intros w Hne; [done|].
  destruct e; try done. simpl.
  destruct es as [|e' es']; [done|].
  destruct (IH (snd (onScroll scrollY scrollHeight innerHeight w))) as (?&?&?&?);
    [done|]. done.
Qed.

Lemma onScrollTimeout_run (w : world) :
  onScrollTimeout w =
  trackEvent "scroll_depth" "User Behavior" "Max Scroll Percentage"
    (Some (maxScroll (this w))) w.
Proof. reflexivity. Qed.

(** X5.  A burst of scroll events, however long, in which the timer never
    runs between two events, is reported once: the events themselves report
    nothing, the timer that runs after the last of them reports one
    [scroll_depth] event with the running maximum reached by then, and no
    timer is left (a second run of the timer does nothing).  Stated for a
    sink that is absent or does not throw. *)
Theorem scroll_burst_reports_once (es : list event) (w : world) :
  Forall is_scroll es → es ≠ [] → quiet (gtag w) →
  let w' := run (es ++ [ScrollTimeout; ScrollTimeout]) w in
  reported w w' =
    [(GtagEvent "scroll_depth" "User Behavior" "Max Scroll Percentage"
        (Some (maxScroll (this (run es w)))), true)] ∧
  scrollTimeout (this w') = false.
Proof.
  intros Hes Hne Hq w'. unfold w', reported. rewrite run_app.
  destruct (scrolls_run es w Hes Hne) as (Hg & Hs & Hc & Hp).
  generalize dependent (run es w). intros w1 Hg Hs Hc Hp.
  simpl. rewrite !bind_run. simpl. rewrite Hp. simpl.
  rewrite !bind_run. simpl.
  rewrite onScrollTimeout_run, trackEvent_run. simpl.
  rewrite Hg, Hq. do 2 world_simpl. rewrite Hc.
  by rewrite drop_app_length.
Qed.

Lemma scroll_burst_reports_once_witness :
  Forall is_scroll sample_more_scrolls ∧ sample_more_scrolls ≠ [] ∧
  quiet None ∧
  reported (constructor None 0)
    (run (sample_more_scrolls ++ [ScrollTimeout; ScrollTimeout]) (constructor None 0)) =
    [(GtagEvent "scroll_depth" "User Behavior" "Max Scroll Percentage"
        (Some (maxScroll (this (run sample_more_scrolls (constructor None 0))))),
      true)].
Proof.
  assert (Forall is_scroll sample_more_scrolls) as Hes
    by (repeat constructor).
  assert (sample_more_scrolls ≠ []) as Hne by discriminate.
  assert (quiet None) as Hq by (intros ev; reflexivity).
  split; [exact Hes|]. split; [exact Hne|]. split; [exact Hq|].
  exact (proj1 (scroll_burst_reports_once sample_more_scrolls
                  (constructor None 0) Hes Hne Hq)).
Defined.

(** *** Memory samples *)

Lemma rounded_megabytes (bytes : Z) :
  round (div (of_Z bytes) (of_Z 1048576)) = of_Z ((2 * bytes + 1048576) / 2097152).
Proof.
  unfold round, div, of_Z.
  assert ((inject_Z 1048576 ?= 0)%Q = Gt) as -> by reflexivity.
  cbv beta iota. f_equal. f_equal.
  rewrite (Qfloor_comp _ (inject_Z bytes / inject_Z 1048576 + (1 # 2))).
  2:{ by rewrite Qred_correct. }
  unfold Qfloor, Qdiv, Qmult, Qplus, Qinv, inject_Z. simpl.
  rewrite !Z.mul_1_r. f_equal. lia.
Qed.

(** X6.  The memory sampler reports a sample exactly when the used heap is
    at least 10.5 MiB (11010048 bytes): the test [> 10] is made on the
    rounded number of MiB, so heaps from 10.5 MiB on are reported (as 11 or
    more) and a heap between 10 and 10.5 MiB is not.  The value reported is
    the number of bytes divided by 1048576 and rounded half up; the sizes of
    the total heap and of the limit play no part. *)
Theorem memory_reported_from_ten_and_a_half_megabytes
    (usedJSHeapSize totalJSHeapSize jsHeapSizeLimit : Z) (w : world) :
  onMemoryInterval usedJSHeapSize totalJSHeapSize jsHeapSizeLimit w =
  if (11010048 <=? usedJSHeapSize)%Z
  then trackEvent "memory_usage" "Performance" "Used JS Heap Size (MB)"
         (Some (of_Z ((2 * usedJSHeapSize + 1048576) / 2097152))) w
  else (Return (), w).
Proof.
  unfold onMemoryInterval. rewrite rounded_megabytes.
  unfold gt, of_Z, Qle_bool, inject_Z. simpl. rewrite !Z.mul_1_r.
  destruct (Z.leb_spec 11010048 usedJSHeapSize) as [Hle|Hlt].
  - rewrite (proj2 (Z.leb_gt _ _)); [done|].
    apply Z.lt_le_trans with 11%Z; [lia|].
    apply Z.div_le_lower_bound; lia.
  - rewrite (proj2 (Z.leb_le _ _)); [done|].
    apply Z.lt_succ_r. apply Z.div_lt_upper_bound; lia.
Qed.

(** *** The recognized conversions *)

Lemma trackEvent_quiet (a c l : string) (v : option number) (w : world) :
  quiet (gtag w) →
  trackEvent a c l v w =
  (Return (), entered (GtagEvent a c l v) true (deliver (GtagEvent a c l v) w)).
Proof. intros Hq. rewrite trackEvent_run. simpl. by rewrite Hq. Qed.

(** X7.  For each of the three recognized kinds and every value,
    [trackConversion] returns after exactly two calls of [trackEvent]: the
    generic conversion event with the kind as label and the value given,
    then the event of the kind, whose action is the kind itself and whose
    value is 1 whatever value was given.  Stated for a sink that is absent
    or does not throw. *)
Theorem recognized_conversion_reports_twice
    (w : world) (type : string) (value : option number) :
  quiet (gtag w) → type ∈ recognized →
  fst (trackConversion type value w) = Return () ∧
  reported w (snd (trackConversion type value w)) =
    [(GtagEvent "conversion" "Conversion" type value, true);
     (specific_event type, true)] ∧
  action (specific_event type) = type ∧
  Analytics.value (specific_event type) = Some (of_Z 1).
Proof.
  intros Hq Hin. unfold recognized in Hin.
  rewrite !elem_of_cons, elem_of_nil in Hin.
  assert (∀ ev, quiet (gtag (entered ev true (deliver ev w)))) as Hq1.
  { intros ev. by world_simpl. }
  unfold trackConversion, reported, specific_event.
  rewrite bind_run, (trackEvent_quiet _ _ _ _ w Hq).
  destruct Hin as [->|[->|[->|[]]]]; simpl;
    rewrite trackEvent_quiet by apply Hq1;
    do 2 world_simpl; rewrite <- app_assoc, drop_app_length; done.
Qed.

Lemma recognized_conversion_reports_twice_witness :
  quiet None ∧ "contact_attempt" ∈ recognized ∧
  reported (constructor None 0)
    (snd (trackConversion "contact_attempt" None (constructor None 0))) =
    [(GtagEvent "conversion" "Conversion" "contact_attempt" None, true);
     (GtagEvent "contact_attempt" "Lead Generation" "Contact Form"
        (Some (of_Z 1)), true)].
Proof.
  assert (quiet None) as Hq by (intros ev; reflexivity).
  assert ("contact_attempt" ∈ recognized) as Hin by apply list_elem_of_here.
  split; [exact Hq|]. split; [exact Hin|].
  exact (proj1 (proj2 (recognized_conversion_reports_twice (constructor None 0)
                         "contact_attempt" None Hq Hin))).
Defined.

(** *** The platform of a social link *)

Lemma append_nil_l (s : string) : EmptyString ++ s = s.
Proof. reflexivity. Qed.

Lemma append_cons (c : ascii) (s r : string) :
  String c s ++ r = String c (s ++ r).
Proof. reflexivity. Qed.

Lemma strip_prefix_spec (p s r : string) :
  strip_prefix p s = Some r ↔ s = p ++ r.
Proof.
  revert s. induction p as [|a p IH]; intros s; simpl.
  - rewrite append_nil_l. split; [by intros [= ->] | by intros ->].
  - rewrite append_cons. destruct s as [|b s]; [done|].
    destruct (Ascii.eqb_spec a b) as [->|Hne].
    + rewrite IH. split; [by intros -> | by intros [= ->]].
    + split; [done | intros [= ? ?]; done].
Qed.

Lemma includes_spec (s sub : string) : includes s sub = true ↔ occurs sub s.
Proof.
  unfold occurs. induction s as [|c s IH]; simpl.
  - destruct (strip_prefix sub EmptyString) as [r|] eqn:Hp.
    + apply strip_prefix_spec in Hp. split; [|done]. intros _.
      exists EmptyString, r. by rewrite append_nil_l.
    + split; [done|]. intros (pre & post & H).
      destruct pre; [|by rewrite append_cons in H].
      rewrite append_nil_l in H.
      apply strip_prefix_spec in H. congruence.
  - destruct (strip_prefix sub (String c s)) as [r|] eqn:Hp.
    + apply strip_prefix_spec in Hp. split; [|done]. intros _.
      exists EmptyString, r. by rewrite append_nil_l.
    + rewrite IH. split.
      * intros (pre & post & ->). exists (String c pre), post.
        by rewrite append_cons.
      * intros (pre & post & H). destruct pre as [|c' pre].
        -- rewrite append_nil_l in H.
           apply strip_prefix_spec in H. congruence.
        -- rewrite append_cons in H. injection H as -> ->. by exists pre, post.
Qed.

(** X8.  [getSocialPlatform] names the platform by the first of the words
    [linkedin], [github], [codechef] (in this order, in lower case) that
    occurs anywhere in the address, and answers [Unknown] exactly when none
    of them occurs: an address of GitHub that contains [linkedin] somewhere
    is counted as LinkedIn. *)
Theorem getSocialPlatform_by_first_match (url : string) :
  (getSocialPlatform url = "LinkedIn" ↔ occurs "linkedin" url) ∧
  (getSocialPlatform url = "GitHub" ↔
     ¬ occurs "linkedin" url ∧ occurs "github" url) ∧
  (getSocialPlatform url = "CodeChef" ↔
     ¬ occurs "linkedin" url ∧ ¬ occurs "github" url ∧ occurs "codechef" url) ∧
  (getSocialPlatform url = "Unknown" ↔
     ¬ occurs "linkedin" url ∧ ¬ occurs "github" url ∧
     ¬ occurs "codechef" url).
Proof.
  rewrite <- !includes_spec. unfold getSocialPlatform.
  destruct (includes url "linkedin"), (includes url "github"),
    (includes url "codechef"); intuition congruence.
Qed.


(** ** Regular expressions *)

Section RegExp.
Import RegExp.
Local Open Scope list_scope.

Lemma matches_never (s : list N) : matches Never s ↔ False.
Proof. split; [inversion 1|done]. Qed.

Lemma matches_empty_iff (s : list N) : matches Empty s ↔ s = [].
Proof. split; [by inversion 1 | intros ->; constructor]. Qed.

Lemma matches_class_iff (p : N → bool) (s : list N) :
  matches (Class p) s ↔ ∃ c, s = [c] ∧ p c = true.
Proof.
  split; [inversion 1; subst; eauto|]. intros (c & -> & Hc). by constructor.
Qed.

Lemma matches_seq_iff (r1 r2 : re) (s : list N) :
  matches (Seq r1 r2) s ↔ ∃ s1 s2, s = s1 ++ s2 ∧ matches r1 s1 ∧ matches r2 s2.
Proof.
  split; [inversion 1; subst; eauto|]. intros (s1 & s2 & -> & H1 & H2).
  by constructor.
Qed.

Lemma matches_or_iff (r1 r2 : re) (s : list N) :
  matches (Or r1 r2) s ↔ matches r1 s ∨ matches r2 s.
Proof.
  split; [inversion 1; subst; eauto|].
  intros [H|H]; [by apply matches_or_l | by apply matches_or_r].
Qed.

Lemma nullable_spec (r : re) : nullable r = true ↔ matches r [].
Proof.
  induction r as [| |p|r1 IH1 r2 IH2|r1 IH1 r2 IH2|r IH]; simpl.
  - by rewrite matches_never.
  - by rewrite matches_empty_iff.
  - rewrite matches_class_iff. split; [done|]. by intros (c & ? & _).
  - rewrite andb_true_iff, IH1, IH2, matches_seq_iff. split.
    + intros [H1 H2]. by exists [], [].
    + intros (s1 & s2 & Heq & H1 & H2).
      symmetry in Heq. apply app_eq_nil in Heq as [-> ->]. done.
  - by rewrite orb_true_iff, IH1, IH2, matches_or_iff.
  - split; [constructor|done].
Qed.

(** A non-empty string of [r*] starts with a non-empty string of [r]. *)
Lemma matches_star_uncons (r : re) (c : N) (rest : list N) :
  matches (Star r) (c :: rest) →
  ∃ s1 s2, rest = s1 ++ s2 ∧ matches r (c :: s1) ∧ matches (Star r) s2.
Proof.
  intros H. remember (Star r) as r' eqn:Hr. remember (c :: rest) as cs eqn:Hcs.
  revert rest Hcs.
  induction H as [| | | | | |r0 s1 s2 H1 _ H2 IH2]; intros rest Hcs;
    try discriminate.
  injection Hr as ->. destruct s1 as [|c1 s1]; simpl in Hcs.
  - by apply IH2.
  - injection Hcs as -> <-. by exists s1, s2.
Qed.

Lemma deriv_spec (r : re) (c : N) (s : list N) :
  matches (deriv c r) s ↔ matches r (c :: s).
Proof.
  revert s. induction r as [| |p|r1 IH1 r2 IH2|r1 IH1 r2 IH2|r IH]; intros s; simpl.
  - by rewrite !matches_never.
  - rewrite matches_never, matches_empty_iff. done.
  - rewrite matches_class_iff. destruct (p c) eqn:Hp.
    + rewrite matches_empty_iff. split; [intros ->; eauto|].
      by intros (c' & [= -> ->] & _).
    + rewrite matches_never. split; [done|].
      intros (c' & [= -> ->] & ?). congruence.
  - assert (matches (Seq r1 r2) (c :: s) ↔
            matches (Seq (deriv c r1) r2) s ∨
            (matches r1 [] ∧ matches (deriv c r2) s)) as Hseq.
    { rewrite !matches_seq_iff. split.
      - intros (s1 & s2 & Heq & H1 & H2). destruct s1 as [|c1 s1]; simpl in Heq.
        + subst. right. split; [done|]. by apply IH2.
        + injection Heq as -> ->. left. exists s1, s2.
          split; [done|]. split; [by apply IH1|done].
      - intros [(s1 & s2 & -> & H1 & H2)|[H1 H2]].
        + exists (c :: s1), s2. split; [done|]. split; [by apply IH1|done].
        + exists [], (c :: s). split; [done|]. split; [done|by apply IH2]. }
    rewrite Hseq. destruct (nullable r1) eqn:Hn.
    + rewrite matches_or_iff. apply nullable_spec in Hn. tauto.
    + assert (¬ matches r1 []) as Hn'.
      { rewrite <- nullable_spec. congruence. }
      tauto.
  - by rewrite !matches_or_iff, IH1, IH2.
  - rewrite matches_seq_iff. split.
    + intros (s1 & s2 & -> & H1 & H2).
      apply IH in H1. by apply (matches_star_cons _ (c :: s1) s2).
    + intros H. apply matches_star_uncons in H as (s1 & s2 & -> & H1 & H2).
      exists s1, s2. split; [done|]. split; [by apply IH|done].
Qed.

(** [test] decides the strings of a regular expression. *)
Lemma test_spec (r : re) (s : list N) : test r s = true ↔ matches r s.
Proof.
  revert r. induction s as [|c s IH]; intros r; simpl.
  - apply nullable_spec.
  - rewrite IH. apply deriv_spec.
Qed.

Lemma matches_star_class (p : N → bool) (s : list N) :
  matches (Star (Class p)) s ↔ Forall (λ c, p c = true) s.
Proof.
  split.
  - intros H. remember (Star (Class p)) as r eqn:Hr.
    induction H as [| | | | | |r0 s1 s2 H1 _ H2 IH2]; try discriminate.
    + constructor.
    + injection Hr as ->. apply matches_class_iff in H1 as (c & -> & Hc).
      constructor; [done|]. by apply IH2.
  - induction 1 as [|c s Hc _ IH]; [constructor|].
    apply (matches_star_cons _ [c] s); [by constructor|done].
Qed.

Lemma matches_plus_class (p : N → bool) (s : list N) :
  matches (plus (Class p)) s ↔ s ≠ [] ∧ Forall (λ c, p c = true) s.
Proof.
  unfold plus. rewrite matches_seq_iff. split.
  - intros (s1 & s2 & -> & H1 & H2).
    apply matches_class_iff in H1 as (c & -> & Hc).
    apply matches_star_class in H2. split; [done|]. by constructor.
  - intros [Hne H]. destruct H as [|c s Hc H]; [done|].
    exists [c], s. split; [done|].
    split; [by constructor | by apply matches_star_class].
Qed.

Lemma matches_upto_class (n : nat) (p : N → bool) (s : list N) :
  matches (upto n (Class p)) s ↔ (length s ≤ n)%nat ∧ Forall (λ c, p c = true) s.
Proof.
  revert s. induction n as [|n IH]; intros s; simpl.
  - rewrite matches_empty_iff. split.
    + intros ->. split; [done|constructor].
    + intros [Hl _]. destruct s; [done | simpl in Hl; lia].
  - unfold optional.
    rewrite matches_or_iff, matches_empty_iff, matches_seq_iff. split.
    + intros [->|(s1 & s2 & -> & H1 & H2)].
      * split; [simpl; lia|constructor].
      * apply matches_class_iff in H1 as (c & -> & Hc).
        apply IH in H2 as [Hl Hf]. split; [simpl; lia | by constructor].
    + intros [Hl Hf]. destruct Hf as [|c s Hc Hf]; [by left|].
      right. exists [c], s. split; [done|]. split; [by constructor|].
      apply IH. split; [simpl in Hl; lia | done].
Qed.

End RegExp.

(** ** Validation of the contact form *)

Section Validation.
Import RegExp Validation.
Local Open Scope list_scope.

Lemma trimStart_spaces (a s : list N) :
  Forall (λ c, space c = true) a → trimStart (a ++ s) = trimStart s.
Proof. induction 1 as [|c a Hc _ IH]; simpl; [done|]. by rewrite Hc. Qed.

Lemma trimEnd_spaces (b : list N) :
  Forall (λ c, space c = true) b → trimEnd b = [].
Proof. induction 1 as [|c b Hc _ IH]; simpl; [done|]. by rewrite IH, Hc. Qed.

Lemma trimEnd_app_spaces (s b : list N) :
  Forall (λ c, space c = true) b → trimEnd (s ++ b) = trimEnd s.
Proof.
  intros Hb. induction s as [|c s IH]; simpl.
  - by apply trimEnd_spaces.
  - by rewrite IH.
Qed.

Lemma trimStart_app (s b : list N) :
  trimStart s ≠ [] → trimStart (s ++ b) = trimStart s ++ b.
Proof.
  induction s as [|c s IH]; simpl; [done|].
  destruct (space c); [apply IH|done].
Qed.

Lemma trimStart_all_spaces (s : list N) :
  trimStart s = [] → Forall (λ c, space c = true) s.
Proof.
  induction s as [|c s IH]; simpl; [constructor|].
  destruct (space c) eqn:Hc; [|done]. intros H. constructor; [done | by apply IH].
Qed.

(** White space around a value does not survive [trim]. *)
Lemma trim_padded (a s b : list N) :
  Forall (λ c, space c = true) a → Forall (λ c, space c = true) b →
  trim (a ++ s ++ b) = trim s.
Proof.
  intros Ha Hb. unfold trim. rewrite trimStart_spaces by done.
  destruct (trimStart s) as [|c t] eqn:Hs.
  - apply trimStart_all_spaces in Hs.
    rewrite <- (app_nil_r (s ++ b)), trimStart_spaces; [done|].
    by apply Forall_app.
  - rewrite trimStart_app by (by rewrite Hs). rewrite Hs.
    by apply trimEnd_app_spaces.
Qed.

Lemma emailRegex_spec (v : list N) : test emailRegex v = true ↔ address v.
Proof.
  rewrite test_spec. unfold emailRegex, address, address_part.
  assert (∀ s, matches (plus (Class (λ c, negb (space c || unit_is 64 c)))) s ↔
               s ≠ [] ∧ Forall (λ c, space c = false ∧ c ≠ 64%N) s) as Hpart.
  { intros s. rewrite matches_plus_class. apply and_iff_compat_l.
    apply Forall_iff. intros c. unfold unit_is.
    rewrite negb_true_iff, orb_false_iff, N.eqb_neq.
    split; intros [? ?]; split; congruence. }
  assert (∀ k s, matches (Class (unit_is k)) s ↔ s = [k]) as Hone.
  { intros k s. rewrite matches_class_iff. unfold unit_is. split.
    - intros (c & -> & Hc). apply N.eqb_eq in Hc. by subst.
    - intros ->. exists k. by rewrite N.eqb_refl. }
  cbv zeta. rewrite matches_seq_iff. split.
  - intros (s1 & r1 & -> & H1 & H).
    apply matches_seq_iff in H as (s2 & r2 & -> & H2 & H).
    apply matches_seq_iff in H as (s3 & r3 & -> & H3 & H).
    apply matches_seq_iff in H as (s4 & s5 & -> & H4 & H5).
    apply Hone in H2 as ->. apply Hone in H4 as ->.
    exists s1, s3, s5. by rewrite <- !Hpart.
  - intros (s1 & s3 & s5 & -> & H1 & H3 & H5).
    exists s1, ([64%N] ++ s3 ++ [46%N] ++ s5). split; [done|].
    split; [by apply Hpart|]. apply matches_seq; [by apply Hone|].
    apply matches_seq; [by apply Hpart|].
    apply matches_seq; [by apply Hone | by apply Hpart].
Qed.

Lemma between_spec (a b c : N) :
  ((a <=? c) && (c <=? b))%N = true ↔ (a ≤ c ≤ b)%N.
Proof. by rewrite andb_true_iff, !N.leb_le. Qed.

Lemma phoneRegex_spec (v : list N) : test phoneRegex v = true ↔ phone_number v.
Proof.
  rewrite test_spec. unfold phoneRegex, phone_number, optional.
  rewrite matches_seq_iff. split.
  - intros (s1 & r1 & -> & H1 & H).
    apply matches_seq_iff in H as (s2 & s3 & -> & H2 & H3).
    apply matches_class_iff in H2 as (first & -> & Hf).
    apply matches_upto_class in H3 as [Hl H3].
    exists s1, first, s3. split; [done|].
    split; [|split; [by apply between_spec|split; [|done]]].
    + apply matches_or_iff in H1 as [H1|H1].
      * left. by apply matches_empty_iff.
      * right. apply matches_class_iff in H1 as (c & -> & Hc).
        unfold unit_is in Hc. apply N.eqb_eq in Hc. by subst.
    + eapply Forall_impl; [exact H3|]. intros c Hc. by apply between_spec.
  - intros (sign & first & rest & -> & Hs & Hf & Hr & Hl).
    exists sign, (first :: rest). split; [done|]. split.
    + apply matches_or_iff. destruct Hs as [-> | ->]; [left; constructor|].
      right. by constructor.
    + apply (matches_seq _ _ [first] rest);
        [constructor; by apply between_spec|].
      apply matches_upto_class. split; [done|].
      eapply Forall_impl; [exact Hr|]. intros c Hc. by apply between_spec.
Qed.

End Validation.

Section ValidateForm.
Import RegExp Validation.
Local Open Scope list_scope.

Ltac check_cases :=
  repeat first
    [ destruct (String.eqb _ "email")
    | destruct (String.eqb _ "firstName" || String.eqb _ "lastName")
    | destruct (String.eqb _ "message")
    | destruct (negb (test _ _))
    | destruct (Nat.ltb _ _) ].

Lemma checkRequired_fields (f : control) :
  id (snd (checkRequired f)) = id f ∧ name (snd (checkRequired f)) = name f ∧
  type (snd (checkRequired f)) = type f ∧
  required (snd (checkRequired f)) = required f ∧
  value (snd (checkRequired f)) = value f.
Proof.
  unfold checkRequired. destruct (trim (value f)); [done|].
  check_cases; done.
Qed.

Lemma mark_unmark_valid (f : control) : marked_valid (mark "is-valid" (unmark f)).
Proof.
  unfold marked_valid, mark, unmark, ContactForm.add, ContactForm.remove. simpl.
  split.
  - rewrite elem_of_union, elem_of_singleton. by right.
  - rewrite elem_of_union, elem_of_difference, !elem_of_singleton.
    intros [[_ H]|H]; [by apply H | discriminate H].
Qed.

Lemma mark_unmark_invalid (f : control) :
  marked_invalid (mark "is-invalid" (unmark f)).
Proof.
  unfold marked_invalid, mark, ContactForm.add. simpl.
  rewrite elem_of_union, elem_of_singleton. by right.
Qed.

(** A required field leaves its check with the mark of the verdict. *)
Lemma checkRequired_marks (f : control) :
  if fst (checkRequired f)
  then marked_valid (snd (checkRequired f))
  else marked_invalid (snd (checkRequired f)).
Proof.
  unfold checkRequired. destruct (trim (value f)); [apply mark_unmark_invalid|].
  check_cases; simpl; first [apply mark_unmark_invalid | apply mark_unmark_valid].
Qed.

Lemma checkPhone_marks (f : control) (ok : bool) (f' : control) :
  checkPhone f = Some (ok, f') →
  id f' = id f ∧ required f' = required f ∧ value f' = value f ∧
  (if ok then f' = mark "is-valid" f else f' = mark "is-invalid" f).
Proof.
  unfold checkPhone. destruct (trim (value f)); [done|].
  destruct (negb _); intros [= <- <-]; done.
Qed.

Lemma mark_valid_keeps (f : control) :
  marked_valid f → marked_valid (mark "is-valid" f).
Proof.
  unfold marked_valid, mark, ContactForm.add. simpl. intros [H1 H2]. split.
  - rewrite elem_of_union. by left.
  - rewrite elem_of_union, elem_of_singleton.
    intros [H|H]; [by apply H2 | discriminate H].
Qed.

Lemma mark_keeps_invalid (c : string) (f : control) :
  marked_invalid f → marked_invalid (mark c f).
Proof.
  unfold marked_invalid, mark, ContactForm.add. simpl. intros H.
  rewrite elem_of_union. by left.
Qed.

Lemma forallb_false_elem {A : Type} (p : A → bool) (l : list A) :
  forallb p l = false → ∃ x, x ∈ l ∧ p x = false.
Proof.
  induction l as [|x l IH]; simpl; [done|].
  destruct (p x) eqn:Hx; simpl.
  - intros H. destruct (IH H) as (y & Hy & Hp). exists y. split; [by right|done].
  - intros _. exists x. split; [by left|done].
Qed.

Lemma forallb_true_elem {A : Type} (p : A → bool) (l : list A) (x : A) :
  forallb p l = true → x ∈ l → p x = true.
Proof.
  intros H Hx. rewrite forallb_forall in H. by apply H, list_elem_of_In.
Qed.

(** X9.  The verdict of [validateForm] and the marks it leaves agree: when it
    returns [true], every required control carries [is-valid] and not
    [is-invalid]; when it returns [false], some control carries
    [is-invalid], so the submit listener finds a field to scroll to. *)
Theorem validateForm_marks (controls : list control) :
  if fst (validateForm controls)
  then ∀ f, f ∈ snd (validateForm controls) → required f = true → marked_valid f
  else ∃ f, f ∈ snd (validateForm controls) ∧ marked_invalid f.
Proof.
  unfold validateForm.
  set (check := λ field : control,
         if required field then checkRequired field else (true, field)).
  set (checked := map check controls).
  assert (∀ (ok : bool) (f : control), (ok, f) ∈ checked → required f = true →
            if ok then marked_valid f else marked_invalid f) as Hmark.
  { intros ok f Hin Hreq. apply list_elem_of_fmap in Hin as (f0 & Heq & _).
    unfold check in Heq. destruct (required f0) eqn:Hr0.
    - pose proof (checkRequired_marks f0) as Hm. by rewrite <- Heq in Hm.
    - injection Heq as -> ->. congruence. }
  assert (∀ (ok : bool) (f : control),
            (ok, f) ∈ checked → ok = false → required f = true) as Hreq.
  { intros ok f Hin ->. apply list_elem_of_fmap in Hin as (f0 & Heq & _).
    unfold check in Heq. destruct (required f0) eqn:Hr0; [|done].
    destruct (checkRequired_fields f0) as (_&_&_&Hr&_).
    rewrite <- Heq in Hr. simpl in Hr. congruence. }
  assert (forallb fst checked = true →
          ∀ f, f ∈ map snd checked → required f = true → marked_valid f) as Hyes.
  { intros Hall f Hf Hr. apply list_elem_of_fmap in Hf as ([ok f'] & -> & Hin).
    pose proof (forallb_true_elem _ _ _ Hall Hin) as Hok. simpl in Hok. subst ok.
    by apply (Hmark true f'). }
  assert (forallb fst checked = false →
          ∃ i f, map snd checked !! i = Some f ∧ marked_invalid f) as Hno.
  { intros Hall. apply forallb_false_elem in Hall as ([ok f] & Hin & Hok).
    simpl in Hok. subst ok.
    apply list_elem_of_lookup in Hin as [i Hi]. exists i, f.
    split; [by rewrite list_lookup_fmap, Hi|].
    apply (Hmark false f); [by apply list_elem_of_lookup_2 in Hi|].
    apply (Hreq false f); [by apply list_elem_of_lookup_2 in Hi|done]. }
  destruct (list_find _ (map snd checked)) as [[i phoneField]|] eqn:Hfind.
  2:{ destruct (forallb fst checked); simpl; [by apply Hyes|].
      destruct Hno as (i & f & Hi & Hf); [done|].
      exists f. split; [by apply list_elem_of_lookup_2 in Hi|done]. }
  apply list_find_Some in Hfind as (Hi & _ & _).
  destruct (checkPhone phoneField) as [[ok phoneField']|] eqn:Hphone.
  2:{ destruct (forallb fst checked); simpl; [by apply Hyes|].
      destruct Hno as (j & f & Hj & Hf); [done|].
      exists f. split; [by apply list_elem_of_lookup_2 in Hj|done]. }
  apply checkPhone_marks in Hphone as (_ & Hr & _ & Hm). simpl.
  destruct (forallb fst checked) eqn:Hall; simpl.
  - destruct ok.
    + intros f Hf Hrf. apply list_elem_of_lookup in Hf as [j Hj].
      destruct (decide (i = j)) as [<-|Hne].
      * rewrite list_lookup_insert_eq in Hj by (by eapply lookup_lt_Some).
        injection Hj as <-. subst phoneField'. apply mark_valid_keeps.
        apply Hyes; [done| |by rewrite <- Hr].
        by apply list_elem_of_lookup_2 in Hi.
      * rewrite list_lookup_insert_ne in Hj by done.
        apply Hyes; [done| |done]. by apply list_elem_of_lookup_2 in Hj.
    + exists phoneField'. split.
      * apply list_elem_of_lookup. exists i.
        apply list_lookup_insert_eq. by eapply lookup_lt_Some.
      * subst phoneField'. unfold marked_invalid, mark, ContactForm.add. simpl.
        rewrite elem_of_union, elem_of_singleton. by right.
  - destruct Hno as (j & f & Hj & Hf); [done|].
    destruct (decide (i = j)) as [<-|Hne].
    + exists phoneField'. split.
      * apply list_elem_of_lookup. exists i.
        apply list_lookup_insert_eq. by eapply lookup_lt_Some.
      * rewrite Hi in Hj. injection Hj as ->.
        destruct ok; subst phoneField'; by apply mark_keeps_invalid.
    + exists f. split; [|done]. apply list_elem_of_lookup. exists j.
      by rewrite list_lookup_insert_ne.
Qed.


Lemma address_nonempty (v : list N) : address v → v ≠ [].
Proof.
  intros (l & d & t & -> & [Hl _] & _). destruct l; [done|]. done.
Qed.

(** X10.  A required control of type [email] passes exactly when its value,
    with the white space at both ends removed, has the form
    [local@domain.tld], where each of the three parts is not empty and has
    neither white space nor [@] (the domain may have further dots; the
    split at a dot is not unique). *)
Theorem email_field_accepted (f : control) :
  type f = "email" →
  fst (checkRequired f) = true ↔ address (trim (value f)).
Proof.
  intros Hty. unfold checkRequired.
  destruct (trim (value f)) as [|c v] eqn:Hv.
  - simpl. split; [done|]. intros H. by apply address_nonempty in H.
  - cbv zeta. change (type (unmark f)) with (type f). rewrite Hty.
    change (String.eqb "email" "email") with true. cbv iota.
    rewrite <- emailRegex_spec.
    by destruct (test emailRegex (c :: v)).
Qed.

Lemma email_field_accepted_witness :
  type sample_email = "email" ∧ address (trim (value sample_email)).
Proof.
  split; [reflexivity|].
  apply (email_field_accepted sample_email eq_refl). vm_compute. reflexivity.
Defined.

Lemma trimStart_nil_iff (s : list N) :
  trimStart s = [] ↔ Forall (λ c, space c = true) s.
Proof.
  split; [apply trimStart_all_spaces|].
  intros H. rewrite <- (app_nil_r s). by rewrite trimStart_spaces.
Qed.

Lemma trimStart_head (s : list N) (c : N) (t : list N) :
  trimStart s = c :: t → space c = false.
Proof.
  induction s as [|d s IH]; simpl; [done|].
  destruct (space d) eqn:Hd; [done|]. by intros [= -> ->].
Qed.

Lemma trim_nil_iff (s : list N) :
  trim s = [] ↔ Forall (λ c, space c = true) s.
Proof.
  rewrite <- trimStart_nil_iff. unfold trim.
  destruct (trimStart s) as [|c t] eqn:Hs; [done|].
  apply trimStart_head in Hs. simpl. rewrite Hs.
  split; [|done]. by destruct (trimEnd t).
Qed.

Lemma filter_trimStart (keep : N → bool) (s : list N) :
  (∀ c, space c = true → keep c = false) →
  List.filter keep (trimStart s) = List.filter keep s.
Proof.
  intros Hk. induction s as [|c s IH]; simpl; [done|].
  destruct (space c) eqn:Hc; simpl; [by rewrite Hk|done].
Qed.

Lemma filter_trimEnd (keep : N → bool) (s : list N) :
  (∀ c, space c = true → keep c = false) →
  List.filter keep (trimEnd s) = List.filter keep s.
Proof.
  intros Hk. induction s as [|c s IH]; simpl; [done|].
  rewrite <- IH. destruct (trimEnd s) as [|d t]; [|done].
  destruct (space c) eqn:Hc; simpl; [by rewrite Hk|done].
Qed.

Lemma strip_keep (c : N) :
  space c = true →
  negb (space c || unit_is 45 c || unit_is 40 c || unit_is 41 c) = false.
Proof. by intros ->. Qed.

(** The separators that the phone check drops include all that [trim]
    drops. *)
Lemma strip_trim (s : list N) : stripSeparators (trim s) = stripSeparators s.
Proof.
  unfold trim, stripSeparators.
  rewrite filter_trimEnd, filter_trimStart; [done|apply strip_keep..].
Qed.


Lemma phone_number_nonempty (v : list N) : phone_number v → v ≠ [].
Proof. intros (sg & d & r & -> & _). by destruct sg. Qed.

(** X11.  The optional phone check is skipped exactly when the value is
    empty or all white space; otherwise it passes exactly when what is left
    of the value once white space, hyphens and parentheses are taken out
    everywhere is an optional [+], a digit from 1 to 9 and at most 15 more
    digits. *)
Theorem phone_field_accepted (f : control) :
  (checkPhone f = None ↔ Forall (λ c, space c = true) (value f)) ∧
  (fst <$> checkPhone f = Some true ↔ phone_number (stripSeparators (value f))).
Proof.
  unfold checkPhone. rewrite <- trim_nil_iff, <- (strip_trim (value f)).
  destruct (trim (value f)) as [|c v] eqn:Hv.
  - split; [done|]. split; [done|]. intros H. by apply phone_number_nonempty in H.
  - rewrite <- phoneRegex_spec.
    destruct (test phoneRegex (stripSeparators (c :: v))); simpl; split; done.
Qed.


Lemma padded_id (f f' : control) : padded f f' → id f' = id f.
Proof. by intros (a & b & _ & _ & ->). Qed.

Lemma checkRequired_padded (f f' : control) :
  padded f f' →
  fst (checkRequired f') = fst (checkRequired f) ∧
  padded (snd (checkRequired f)) (snd (checkRequired f')).
Proof.
  intros (a & b & Ha & Hb & ->). unfold checkRequired.
  cbn [value]. rewrite trim_padded by done.
  destruct (trim (value f)) as [|c v].
  - split; [done|]. by exists a, b.
  - cbv zeta. cbn [type name unmark mark].
    check_cases; (split; [done|]); by exists a, b.
Qed.

Lemma checkPhone_padded (f f' : control) :
  padded f f' →
  match checkPhone f, checkPhone f' with
  | Some (ok, g), Some (ok', g') => ok = ok' ∧ padded g g'
  | None, None => True
  | _, _ => False
  end.
Proof.
  intros (a & b & Ha & Hb & ->). unfold checkPhone.
  cbn [value]. rewrite trim_padded by done.
  destruct (trim (value f)) as [|c v]; [done|].
  destruct (negb _); (split; [done|]); by exists a, b.
Qed.

Lemma list_find_padded (l l' : list control) :
  Forall2 padded l l' →
  match list_find (λ f, id f = "phone") l, list_find (λ f, id f = "phone") l' with
  | Some (i, f), Some (j, f') => i = j ∧ padded f f'
  | None, None => True
  | _, _ => False
  end.
Proof.
  induction 1 as [|f f' l l' Hf _ IH]; simpl; [done|].
  rewrite (padded_id f f' Hf).
  destruct (decide (id f = "phone")); [done|].
  destruct (list_find _ l) as [[i g]|], (list_find _ l') as [[j g']|];
    simpl; try done.
  destruct IH as [-> ?]. done.
Qed.

(** X12.  White space before and after the values never changes the outcome
    of [validateForm]: the verdict is the same, and so are the marks (the
    controls it leaves are again the same up to that white space). *)
Theorem validateForm_ignores_padding (controls controls' : list control) :
  Forall2 padded controls controls' →
  fst (validateForm controls') = fst (validateForm controls) ∧
  Forall2 padded (snd (validateForm controls)) (snd (validateForm controls')).
Proof.
  intros H. unfold validateForm.
  set (check := λ field : control,
         if required field then checkRequired field else (true, field)).
  assert (Forall2 (λ x y : bool * control, fst y = fst x ∧ padded (snd x) (snd y))
            (map check controls) (map check controls')) as Hchecked.
  { apply Forall2_fmap. eapply Forall2_impl; [exact H|].
    intros f f' Hf. unfold check.
    assert (required f' = required f) as -> by (by destruct Hf as (?&?&_&_&->)).
    destruct (required f); [by apply checkRequired_padded|done]. }
  assert (forallb fst (map check controls') = forallb fst (map check controls)) as ->.
  { induction Hchecked as [|x y l l' [Hxy _] _ IH]; simpl; [done|].
    by rewrite Hxy, IH. }
  assert (Forall2 padded (map snd (map check controls))
            (map snd (map check controls'))) as Hsnd.
  { apply Forall2_fmap. eapply Forall2_impl; [exact Hchecked|]. by intros x y [_ ?]. }
  pose proof (list_find_padded _ _ Hsnd) as Hfind.
  destruct (list_find _ (map snd (map check controls))) as [[i f]|],
           (list_find _ (map snd (map check controls'))) as [[j f']|];
    try done.
  destruct Hfind as [-> Hf]. pose proof (checkPhone_padded f f' Hf) as Hp.
  destruct (checkPhone f) as [[ok g]|], (checkPhone f') as [[ok' g']|]; try done.
  destruct Hp as [-> Hg]. split; [done|]. by apply Forall2_insert.
Qed.

Lemma validateForm_ignores_padding_witness :
  Forall2 padded [sample_email_trimmed] [sample_email] ∧
  fst (validateForm [sample_email]) = fst (validateForm [sample_email_trimmed]).
Proof.
  assert (Forall2 padded [sample_email_trimmed] [sample_email]) as H.
  { constructor; [|constructor]. exists [32%N], [32%N].
    split; [by repeat constructor|]. split; [by repeat constructor|].
    reflexivity. }
  split; [exact H|].
  exact (proj1 (validateForm_ignores_padding _ _ H)).
Defined.


(** *** Validating twice *)

Lemma control_eq (f g : control) :
  id f = id g → name f = name g → type f = type g → required f = required g →
  value f = value g → classList f = classList g → f = g.
Proof. destruct f, g. simpl. by intros -> -> -> -> -> ->. Qed.

Lemma unmark_unmark (f : control) : unmark (unmark f) = unmark f.
Proof.
  apply control_eq; try done. unfold unmark, ContactForm.remove. simpl.
  apply set_eq. intros x. rewrite !elem_of_difference. tauto.
Qed.

Lemma unmark_mark (c : string) (f : control) :
  c = "is-valid" ∨ c = "is-invalid" → unmark (mark c f) = unmark f.
Proof.
  intros Hc. apply control_eq; try done.
  unfold unmark, mark, ContactForm.remove, ContactForm.add. simpl.
  apply set_eq. intros x.
  rewrite !elem_of_difference, elem_of_union, !elem_of_singleton.
  destruct Hc as [-> | ->]; tauto.
Qed.

Lemma mark_mark (c : string) (f : control) : mark c (mark c f) = mark c f.
Proof.
  apply control_eq; try done. unfold mark, ContactForm.add. simpl.
  apply set_eq. intros x. rewrite !elem_of_union. tauto.
Qed.

(** The check of a required field reads its marks only to remove them. *)
Lemma checkRequired_unmark (f g : control) :
  unmark g = unmark f → checkRequired g = checkRequired f.
Proof.
  intros H. unfold checkRequired.
  change (value g) with (value (unmark g)).
  change (value f) with (value (unmark f)). by rewrite H.
Qed.

Lemma checkRequired_result (f : control) :
  ∃ c, (c = "is-valid" ∨ c = "is-invalid") ∧
       snd (checkRequired f) = mark c (unmark f).
Proof.
  unfold checkRequired. destruct (trim (value f)); [by eexists; eauto|].
  cbv zeta. check_cases; simpl; eexists; eauto.
Qed.

Lemma checkRequired_twice (f : control) :
  checkRequired (snd (checkRequired f)) = checkRequired f.
Proof.
  destruct (checkRequired_result f) as (c & Hc & ->).
  apply checkRequired_unmark. by rewrite unmark_mark, unmark_unmark.
Qed.

Lemma checkPhone_result (f : control) (ok : bool) (f' : control) :
  checkPhone f = Some (ok, f') →
  ∃ c, (c = "is-valid" ∨ c = "is-invalid") ∧ f' = mark c f ∧
       ∀ g, value g = value f → checkPhone g = Some (ok, mark c g).
Proof.
  unfold checkPhone. intros H.
  destruct (trim (value f)) as [|u v] eqn:Hv; [done|].
  destruct (negb _) eqn:Ht; injection H as <- <-.
  - exists "is-invalid". split; [by right|]. split; [done|].
    intros g ->. by rewrite Hv, Ht.
  - exists "is-valid". split; [by left|]. split; [done|].
    intros g ->. by rewrite Hv, Ht.
Qed.

Lemma forallb_insert_same {A : Type} (p : A → bool) (l : list A) (i : nat) (x y : A) :
  l !! i = Some x → p y = p x → forallb p (<[i := y]> l) = forallb p l.
Proof.
  revert i. induction l as [|z l IH]; intros [|i]; simpl; try done.
  - by intros [= ->] ->.
  - intros Hi Hp. by rewrite (IH i).
Qed.

Lemma list_find_insert_same (l : list control) (i : nat) (f g : control) :
  list_find (λ f, id f = "phone") l = Some (i, f) → id g = id f →
  list_find (λ f, id f = "phone") (<[i := g]> l) = Some (i, g).
Proof.
  intros Hfind Hid. apply list_find_Some in Hfind as (Hi & Hp & Hfirst).
  apply list_find_Some. split; [|split].
  - apply list_lookup_insert_eq. by eapply lookup_lt_Some.
  - congruence.
  - intros j y Hj Hlt. rewrite list_lookup_insert_ne in Hj by lia.
    by apply (Hfirst j).
Qed.


Lemma map_insert {A B : Type} (f : A → B) (l : list A) (i : nat) (x : A) :
  map f (<[i := x]> l) = <[i := f x]> (map f l).
Proof.
  revert i. induction l as [|y l IH]; intros [|i]; simpl; try done.
  by rewrite IH.
Qed.

Lemma map_lookup {A B : Type} (f : A → B) (l : list A) (i : nat) :
  map f l !! i = f <$> l !! i.
Proof. revert i. induction l as [|y l IH]; intros [|i]; simpl; try done. Qed.

(** X13.  [validateForm] is idempotent: run again on the controls as it left
    them, with the values unchanged, it gives the same verdict and leaves
    every control as it is. *)
Theorem validateForm_twice (controls : list control) :
  validateForm (snd (validateForm controls)) = validateForm controls.
Proof.
  set (check := λ field : control,
         if required field then checkRequired field else (true, field)).
  assert (∀ f, check (snd (check f)) = check f) as Hcheck.
  { intros f. unfold check. destruct (required f) eqn:Hr.
    - destruct (checkRequired_fields f) as (_&_&_&->&_). rewrite Hr.
      apply checkRequired_twice.
    - simpl. by rewrite Hr. }
  set (l1 := map snd (map check controls)).
  assert (map check l1 = map check controls) as Hl1.
  { unfold l1. rewrite !map_map. apply map_ext. intros f. apply Hcheck. }
  assert (validateForm controls =
          match list_find (λ field, id field = "phone") l1 with
          | Some (i, phoneField) =>
              match checkPhone phoneField with
              | Some (ok, phoneField') =>
                  (forallb fst (map check controls) && ok, <[i := phoneField']> l1)
              | None => (forallb fst (map check controls), l1)
              end
          | None => (forallb fst (map check controls), l1)
          end) as Hfirst by reflexivity.
  assert (validateForm l1 = validateForm controls) as Hsettled.
  { rewrite Hfirst. unfold validateForm.
    change (λ field : control,
              if required field then checkRequired field else (true, field))
      with check.
    rewrite Hl1. by fold l1. }
  rewrite Hfirst at 1.
  destruct (list_find _ l1) as [[i h]|] eqn:Hfind; [|done].
  destruct (checkPhone h) as [[ok h2]|] eqn:Hphone; [|done].
  simpl. apply checkPhone_result in Hphone as (c & Hc & -> & Hagain).
  pose proof Hfind as Hfind'. apply list_find_Some in Hfind' as (Hi & _ & _).
  assert (snd (check h) = h) as Hh.
  { unfold l1 in Hi. rewrite !map_lookup in Hi.
    destruct (controls !! i) as [f0|]; [|done]. injection Hi as <-.
    by rewrite Hcheck. }
  set (h' := if required h then h else mark c h).
  assert (check (mark c h) = (fst (check h), h')) as Hmark.
  { unfold check, h'. cbn [required mark]. destruct (required h) eqn:Hr; [|done].
    rewrite (checkRequired_unmark h (mark c h)) by (by apply unmark_mark).
    unfold check in Hh. rewrite Hr in Hh. rewrite <- Hh at 3.
    by destruct (checkRequired h). }
  assert (mark c h' = mark c h) as Hmm.
  { unfold h'. destruct (required h); [done|apply mark_mark]. }
  rewrite Hfirst. unfold validateForm. fold check.
  rewrite map_insert, Hmark, Hl1.
  rewrite (forallb_insert_same fst _ i (check h)); [|..|done].
  2:{ by rewrite <- Hl1, map_lookup, Hi. }
  rewrite map_insert. fold l1. cbn [snd].
  rewrite (list_find_insert_same l1 i h h' Hfind).
  2:{ unfold h'. by destruct (required h). }
  rewrite (Hagain h'); [|unfold h'; by destruct (required h)].
  by rewrite list_insert_insert_eq, Hmm.
Qed.

End ValidateForm.

(** ** The controls of the contact form after a submission *)

Section ContactFormFields.
Import ContactForm.

Lemma cleared_reset (fs : list field) :
  Forall2 cleared fs
    (map (λ input,
            Field (field_value input) (field_defaultValue input)
              (remove "is-invalid" (remove "is-valid" (field_classList input))))
         (reset fs)).
Proof.
  unfold reset. rewrite map_map.
  induction fs as [|f fs IH]; simpl; constructor; [|exact IH].
  unfold cleared, remove. simpl. repeat split.
  - rewrite !elem_of_difference, !elem_of_singleton. intuition congruence.
  - rewrite !elem_of_difference, !elem_of_singleton. intuition congruence.
  - rewrite !elem_of_difference, !elem_of_singleton. tauto.
  - rewrite !elem_of_difference, !elem_of_singleton. tauto.
Qed.

(** X14.  What a submission of a valid form does to the controls.  When the
    simulated request fails (a draw of at most 0.1) the controls stay as
    the validation left them, so nothing that was typed is lost; when it
    succeeds every control is back at its default value and carries neither
    [is-valid] nor [is-invalid], its other classes being untouched. *)
Theorem submit_keeps_or_clears_fields
    (validateForm : list field → bool * list field) (random : Q) (p : page) :
  fst (validateForm (formInputs p)) = true →
  let checked := snd (validateForm (formInputs p)) in
  let after := onSubmit validateForm random p in
  if Qle_bool random (1 # 10)
  then formInputs after = checked
  else Forall2 cleared checked (formInputs after).
Proof.
  intros Hvalid checked after. unfold after, checked, onSubmit, submitStart.
  destruct (validateForm (formInputs p)) as [isValid inputs]. simpl in Hvalid.
  subst isValid. simpl. unfold simulateFormSubmission.
  destruct (Qle_bool random (1 # 10)); simpl; [done|].
  apply cleared_reset.
Qed.

Lemma submit_keeps_or_clears_fields_witness :
  fst (sample_validateForm (formInputs sample_filled_page)) = true ∧
  Forall2 cleared (formInputs sample_filled_page)
    (formInputs (onSubmit sample_validateForm (1 # 2) sample_filled_page)).
Proof.
  split; [reflexivity|].
  exact (submit_keeps_or_clears_fields sample_validateForm (1 # 2)
           sample_filled_page eq_refl).
Defined.

End ContactFormFields.

(** ** The theme switcher *)

Section Theme.
Import Theme.
Local Open Scope list_scope.

Lemma pending_icon_snoc_icon (ts : list timer) (theme : string) :
  pending_icon (ts ++ [IconTimer theme]) = Some theme.
Proof. unfold pending_icon. rewrite omap_app. simpl. by rewrite last_snoc. Qed.

Lemma pending_icon_snoc_scale (ts : list timer) :
  pending_icon (ts ++ [ScaleTimer]) = pending_icon ts.
Proof. unfold pending_icon. rewrite omap_app. simpl. by rewrite app_nil_r. Qed.

Lemma pending_icon_cons_icon (theme : string) (ts : list timer) :
  pending_icon (IconTimer theme :: ts) =
  Some (default theme (pending_icon ts)).
Proof.
  unfold pending_icon.
  change (omap ?f (IconTimer theme :: ts)) with (theme :: omap f ts).
  rewrite last_cons. by destruct (last _).
Qed.

Lemma pending_icon_cons_scale (ts : list timer) :
  pending_icon (ScaleTimer :: ts) = pending_icon ts.
Proof. reflexivity. Qed.

Lemma themed_setTheme (theme : string) (p : page) :
  theme ≠ EmptyString → themed theme (setTheme theme p).
Proof.
  intros Hne. unfold themed, setTheme. simpl.
  rewrite last_snoc, pending_icon_snoc_icon. done.
Qed.

Lemma themed_onClick (t : string) (p : page) :
  themed t p → ∃ t', themed t' (onClick p).
Proof.
  intros _. unfold onClick.
  set (newTheme := if String.eqb _ _ then _ else _).
  assert (newTheme ≠ EmptyString) as Hne by (unfold newTheme; by destruct (String.eqb _ _)).
  exists newTheme. destruct (themed_setTheme newTheme p Hne) as (?&?&?&?&?&Hicon).
  unfold themed. cbn [dataTheme storage metaThemeColor dispatched timeouts
                      iconClassName iconTransform].
  rewrite pending_icon_snoc_scale. done.
Qed.

Lemma themed_falsy (t : string) (p : page) : themed t p → falsy (storage p) = false.
Proof. intros (Hne & _ & -> & _). by destruct t. Qed.

Lemma themed_onMediaChange (t : string) (matches : bool) (p : page) :
  themed t p → onMediaChange matches p = p.
Proof. intros H. unfold onMediaChange. by rewrite (themed_falsy t p H). Qed.

Lemma themed_onTimeout (t : string) (p : page) :
  themed t p → themed t (onTimeout p).
Proof.
  intros (Hne & Ha & Hs & Hm & Hd & Hicon). unfold onTimeout.
  destruct (timeouts p) as [|[theme|] rest] eqn:Hts.
  - unfold themed. by rewrite Hts.
  - unfold themed. simpl. repeat split; try done.
    rewrite pending_icon_cons_icon in Hicon.
    destruct (pending_icon rest) as [t1|]; simpl in Hicon; [done|].
    by subst theme.
  - unfold themed. simpl. repeat split; try done.
Qed.

Lemma themed_dispatch (t : string) (e : event) (p : page) :
  themed t p → ∃ t', themed t' (dispatch e p).
Proof.
  intros H. destruct e; simpl.
  - by apply themed_onClick with t.
  - unfold onKeydown. destruct (_ || _); [by apply themed_onClick with t|by exists t].
  - exists t. by rewrite (themed_onMediaChange t).
  - exists t. by apply themed_onTimeout.
Qed.

Lemma themed_run (es : list event) (t : string) (p : page) :
  themed t p → ∃ t', themed t' (run es p).
Proof.
  revert t p. induction es as [|e es IH]; intros t p H; [by exists t|].
  destruct (themed_dispatch t e p H) as [t' H']. by apply (IH t').
Qed.

Lemma or_else_nonempty (x : option string) :
  or_else x "light" ≠ EmptyString.
Proof. by destruct x as [[|]|]. Qed.

Lemma initThemeSwitcher_saved (matchMedia : option bool) (p : page) :
  initThemeSwitcher matchMedia p = setTheme (or_else (storage p) "light") p.
Proof.
  unfold initThemeSwitcher. destruct matchMedia as [matches|]; [|done].
  cbv zeta.
  rewrite (themed_falsy (or_else (storage p) "light")); [done|].
  apply themed_setTheme, or_else_nonempty.
Qed.

Lemma themed_init (matchMedia : option bool) (p : page) :
  themed (or_else (storage p) "light") (initThemeSwitcher matchMedia p).
Proof. rewrite initThemeSwitcher_saved. apply themed_setTheme, or_else_nonempty. Qed.

Lemma run_without_media (es : list event) (t : string) (q : page) :
  themed t q →
  run es q = run (filter (λ e, is_media_change e = false) es) q.
Proof.
  revert t q. induction es as [|e es IH]; intros t q H; [done|].
  destruct (themed_dispatch t e q H) as [t' H'].
  destruct e as [|key|matches|].
  - rewrite filter_cons_True by done. by apply (IH t').
  - rewrite filter_cons_True by done. by apply (IH t').
  - rewrite filter_cons_False by done. simpl.
    rewrite (themed_onMediaChange t _ q H). by apply (IH t).
  - rewrite filter_cons_True by done. by apply (IH t').
Qed.

(** X15.  The preference of the system is never applied.  [initThemeSwitcher]
    applies the stored theme, or [light] when nothing is stored, and by doing
    so stores it; the test [!localStorage.getItem('theme')] that follows, and
    the same test in the change listener of the media query, is then false
    for the rest of the session.  So the page after a session does not depend
    on [matchMedia] at all: it is the page that the same session without its
    media-query events gives when [window.matchMedia] is missing. *)
Theorem system_preference_never_applied
    (matchMedia : option bool) (es : list event) (p : page) :
  run es (initThemeSwitcher matchMedia p) =
  run (filter (λ e, is_media_change e = false) es) (initThemeSwitcher None p).
Proof.
  rewrite !initThemeSwitcher_saved.
  apply (run_without_media es (or_else (storage p) "light")).
  apply themed_setTheme, or_else_nonempty.
Qed.

Lemma settle_themed (n : nat) (t : string) (p : page) :
  themed t p → length (timeouts p) = n →
  themed t (run (replicate n TimeoutRuns) p) ∧
  timeouts (run (replicate n TimeoutRuns) p) = [].
Proof.
  revert p. induction n as [|n IH]; intros p H Hn.
  - simpl. split; [done|]. by apply nil_length_inv.
  - simpl. apply IH; [by apply themed_onTimeout|].
    unfold onTimeout. destruct (timeouts p) as [|[theme|] rest]; simpl in *; lia.
Qed.

(** X16.  After [initThemeSwitcher] and every session of clicks, key presses,
    media-query changes and timeouts, the page is in one theme: the
    [data-theme] attribute, the stored item, the colour of the meta element
    and the last [themeChanged] event agree on it, and once the pending
    timeouts have run the icon shows it too (sun for [dark], moon
    otherwise, not rotated), however many changes were still in flight. *)
Theorem theme_consistent (matchMedia : option bool) (es : list event) (p : page) :
  ∃ t, themed t (run es (initThemeSwitcher matchMedia p)) ∧
       let q := settle (run es (initThemeSwitcher matchMedia p)) in
       timeouts q = [] ∧ dataTheme q = Some t ∧ storage q = Some t ∧
       iconClassName q = icon_of t ∧ iconTransform q = "rotate(0deg)".
Proof.
  destruct (themed_run es _ _ (themed_init matchMedia p)) as [t H].
  exists t. split; [done|]. unfold settle.
  destruct (settle_themed _ t _ H eq_refl) as [(_ & Ha & Hs & _ & _ & Hicon) Hts].
  rewrite Hts in Hicon. simpl in Hicon. by destruct Hicon.
Qed.

(** X17.  The theme survives a reload: a page that starts with the item that
    a session has left in [localStorage] is put by [initThemeSwitcher] in the
    theme in which that session ended, whatever the preference of the
    system. *)
Theorem theme_survives_reload
    (matchMedia matchMedia' : option bool) (es : list event) (p q : page) :
  storage q = storage (run es (initThemeSwitcher matchMedia p)) →
  dataTheme (initThemeSwitcher matchMedia' q) =
  dataTheme (run es (initThemeSwitcher matchMedia p)).
Proof.
  intros Hq.
  destruct (themed_run es _ _ (themed_init matchMedia p)) as (t & Hne & Ha & Hs & _).
  rewrite initThemeSwitcher_saved, Hq, Hs, Ha. simpl. by destruct t.
Qed.

Lemma theme_survives_reload_witness :
  storage sample_later_visit =
    storage (run [Click; TimeoutRuns] (initThemeSwitcher (Some false) sample_first_visit)) ∧
  dataTheme (initThemeSwitcher (Some false) sample_later_visit) =
    dataTheme (run [Click; TimeoutRuns] (initThemeSwitcher (Some false) sample_first_visit)).
Proof.
  split; [reflexivity|].
  apply (theme_survives_reload (Some false) (Some false) [Click; TimeoutRuns]
           sample_first_visit sample_later_visit).
  reflexivity.
Defined.

End Theme.

(** ** The navigation bar *)

Section Navigation.
Import Navigation.
Local Open Scope list_scope.

Lemma reached_spec (scrollY : Q) (s : section) :
  Qle_bool (inject_Z (offsetTop s - 200)) scrollY = true ↔ reached scrollY s.
Proof. apply Qle_bool_iff. Qed.


Lemma current_unreached (post : list section) (scrollY : Q) (c : string) :
  Forall (λ s, ¬ reached scrollY s) post →
  fold_left
    (λ current section,
       if Qle_bool (inject_Z (offsetTop section - 200)) scrollY
       then section_id section
       else current)
    post c = c.
Proof.
  intros H. revert c. induction H as [|s post Hs _ IH]; intros c; [done|].
  simpl. rewrite IH. rewrite <- reached_spec in Hs. by destruct (Qle_bool _ _).
Qed.

Lemma current_last_reached (pre post : list section) (s : section) (scrollY : Q) :
  reached scrollY s → Forall (λ s', ¬ reached scrollY s') post →
  current (pre ++ s :: post) scrollY = section_id s.
Proof.
  intros Hs Hpost. unfold current. rewrite fold_left_app. simpl.
  rewrite current_unreached by done.
  apply reached_spec in Hs. by rewrite Hs.
Qed.

Lemma ascending_unreached (s : section) (post : list section) (scrollY : Q) :
  ascending (s :: post) → ¬ reached scrollY s →
  Forall (λ s', ¬ reached scrollY s') post.
Proof.
  intros Hsorted Hs. apply StronglySorted_inv in Hsorted as [_ Hle].
  eapply Forall_impl; [exact Hle|]. intros s' Hle' Hs'. apply Hs.
  unfold reached in *. apply Qle_trans with (inject_Z (offsetTop s' - 200)); [|exact Hs'].
  rewrite <- Zle_Qle. lia.
Qed.

Lemma ascending_app_r (pre post : list section) :
  ascending (pre ++ post) → ascending post.
Proof.
  unfold ascending. induction pre as [|a pre IH]; [done|].
  simpl. intros H. apply StronglySorted_inv in H as [H _]. by apply IH.
Qed.

Lemma active_update (sections : list section) (scrollY : Q) (l : link) :
  let l' :=
    Link (href l)
      (if bool_decide (href l = Some ("#" ++ current sections scrollY)%string)
       then ContactForm.add "active" (ContactForm.remove "active" (classList l))
       else ContactForm.remove "active" (classList l)) in
  (active l' ↔ href l = Some ("#" ++ current sections scrollY)%string) ∧
  ∀ c, c ≠ "active" → c ∈ classList l' ↔ c ∈ classList l.
Proof.
  unfold active, ContactForm.add, ContactForm.remove. simpl.
  destruct (bool_decide_reflect (href l = Some ("#" ++ current sections scrollY)%string))
    as [Heq|Hne].
  - split.
    + rewrite elem_of_union, elem_of_singleton. split; [done|by right].
    + intros c Hc.
      rewrite elem_of_union, elem_of_difference, !elem_of_singleton. tauto.
  - split.
    + rewrite elem_of_difference, elem_of_singleton. split; [tauto|done].
    + intros c Hc. rewrite elem_of_difference, elem_of_singleton. tauto.
Qed.

Lemma current_in_band (pre post : list section) (s : section) (scrollY : Q) :
  ascending (pre ++ s :: post) →
  reached scrollY s →
  (∀ next, head post = Some next → ¬ reached scrollY next) →
  current (pre ++ s :: post) scrollY = section_id s.
Proof.
  intros Hsorted Hs Hnext.
  apply current_last_reached; [done|].
  destruct post as [|next post']; [done|].
  constructor; [by apply Hnext|].
  apply (ascending_unreached next); [|by apply Hnext].
  apply (ascending_app_r (pre ++ [s])). by rewrite <- app_assoc.
Qed.

Lemma highlight_current
    (sections : list section) (scrollY : Q) (id : string) (navLinks : list link) :
  current sections scrollY = id →
  Forall2
    (λ l l',
       href l' = href l ∧
       (active l' ↔ href l = Some ("#" ++ id)%string) ∧
       ∀ c, c ≠ "active"%string → c ∈ classList l' ↔ c ∈ classList l)
    navLinks (updateActiveNavLink sections scrollY navLinks).
Proof.
  intros Hcur. unfold updateActiveNavLink. cbv zeta.
  apply Forall2_fmap_r, Forall_Forall2_diag, Forall_forall. intros l _.
  split; [done|]. rewrite <- Hcur. apply active_update.
Qed.

(** X18.  For sections that follow each other down the page, the link that
    [updateActiveNavLink] highlights is the link of the section in whose
    band the scroll position lies: the section [s] is reached (the position
    is at most 200 px above its top) and the section after it, if any, is
    not.  Then a link is highlighted exactly when its [href] is [#] followed
    by the [id] of [s], whatever was highlighted before, and no other class
    of a link changes. *)
Theorem nav_highlight_follows_band
    (pre post : list section) (s : section) (scrollY : Q) (navLinks : list link) :
  ascending (pre ++ s :: post) →
  reached scrollY s →
  (∀ next, head post = Some next → ¬ reached scrollY next) →
  Forall2
    (λ l l',
       href l' = href l ∧
       (active l' ↔ href l = Some ("#" ++ section_id s)%string) ∧
       ∀ c, c ≠ "active" → c ∈ classList l' ↔ c ∈ classList l)
    navLinks (updateActiveNavLink (pre ++ s :: post) scrollY navLinks).
Proof.
  intros Hsorted Hs Hnext.
  apply highlight_current. by apply current_in_band.
Qed.

Lemma nav_highlight_follows_band_witness :
  ascending sample_sections ∧
  reached 500 (SectionElement "about" 600) ∧
  ¬ reached 500 (SectionElement "skills" 1400) ∧
  Forall2
    (λ l l',
       href l' = href l ∧
       (active l' ↔ href l = Some "#about") ∧
       ∀ c, c ≠ "active"%string → c ∈ classList l' ↔ c ∈ classList l)
    sample_links (updateActiveNavLink sample_sections 500 sample_links).
Proof.
  assert (ascending sample_sections) as Hsorted.
  { repeat constructor; simpl; lia. }
  assert (reached 500 (SectionElement "about" 600)) as Hreached.
  { unfold reached, Qle. simpl. lia. }
  assert (¬ reached 500 (SectionElement "skills" 1400)) as Hnext.
  { unfold reached, Qle. simpl. lia. }
  split; [exact Hsorted|]. split; [exact Hreached|]. split; [exact Hnext|].
  apply (nav_highlight_follows_band [SectionElement "home" 0]
           [SectionElement "skills" 1400] (SectionElement "about" 600) 500
           sample_links Hsorted Hreached).
  intros next Heq. injection Heq as <-. exact Hnext.
Defined.

(** X19.  Above the band of the first section (more than 200 px above its
    top) no section is current, and the only links left highlighted are
    those whose [href] is the bare [#]. *)
Theorem nav_highlight_above_first_section
    (sections : list section) (scrollY : Q) (navLinks : list link) :
  ascending sections →
  (∀ first, head sections = Some first → ¬ reached scrollY first) →
  Forall (λ l', active l' ↔ href l' = Some "#")
    (updateActiveNavLink sections scrollY navLinks).
Proof.
  intros Hsorted Hfirst.
  assert (current sections scrollY = EmptyString) as Hcur.
  { unfold current. apply current_unreached.
    destruct sections as [|first rest]; [done|].
    constructor; [by apply Hfirst|].
    apply (ascending_unreached first); [done|by apply Hfirst]. }
  unfold updateActiveNavLink. cbv zeta. rewrite Hcur.
  apply Forall_fmap, Forall_forall. intros l _. simpl.
  pose proof (active_update sections scrollY l) as [H _].
  rewrite Hcur in H. exact H.
Qed.

Lemma nav_highlight_above_first_section_witness :
  ascending (tail sample_sections) ∧
  ¬ reached 100 (SectionElement "about" 600) ∧
  Forall (λ l', active l' ↔ href l' = Some "#"%string)
    (updateActiveNavLink (tail sample_sections) 100 sample_links).
Proof.
  assert (ascending (tail sample_sections)) as Hsorted.
  { repeat constructor; simpl; lia. }
  assert (¬ reached 100 (SectionElement "about" 600)) as Hfirst.
  { unfold reached, Qle. simpl. lia. }
  split; [exact Hsorted|]. split; [exact Hfirst|].
  apply (nav_highlight_above_first_section (tail sample_sections) 100
           sample_links Hsorted).
  intros first Heq. injection Heq as <-. exact Hfirst.
Defined.

(** X20.  A click on a navigation link ends with that link highlighted.
    The listener of [initSmoothScrolling] asks for the position 80 px above
    the top of the target section; at that position [updateActiveNavLink]
    highlights exactly the links to the target, provided the next section,
    if there is one, starts more than 120 px below the top of the target
    (a section of at most 120 px leaves the link to the next section
    highlighted instead). *)
Theorem nav_click_highlights_target
    (pre post : list section) (s : section) (navLinks : list link) :
  ascending (pre ++ s :: post) →
  (∀ next, head post = Some next → (offsetTop s + 120 < offsetTop next)%Z) →
  Forall2
    (λ l l',
       href l' = href l ∧
       (active l' ↔ href l = Some ("#" ++ section_id s)%string) ∧
       ∀ c, c ≠ "active"%string → c ∈ classList l' ↔ c ∈ classList l)
    navLinks
    (updateActiveNavLink (pre ++ s :: post) (inject_Z (smoothScrollTop s)) navLinks).
Proof.
  intros Hsorted Hnext. apply highlight_current, current_in_band; [done| |].
  - unfold reached, smoothScrollTop. rewrite <- Zle_Qle. lia.
  - intros next Hhead. specialize (Hnext next Hhead).
    unfold reached, smoothScrollTop. rewrite <- Zle_Qle. lia.
Qed.

Lemma nav_click_highlights_target_witness :
  ascending sample_sections ∧
  Forall2
    (λ l l',
       href l' = href l ∧
       (active l' ↔ href l = Some "#about") ∧
       ∀ c, c ≠ "active"%string → c ∈ classList l' ↔ c ∈ classList l)
    sample_links (updateActiveNavLink sample_sections 520 sample_links).
Proof.
  assert (ascending sample_sections) as Hsorted.
  { repeat constructor; simpl; lia. }
  split; [exact Hsorted|].
  apply (nav_click_highlights_target [SectionElement "home" 0]
           [SectionElement "skills" 1400] (SectionElement "about" 600)
           sample_links Hsorted).
  intros next Heq. injection Heq as <-. simpl. lia.
Defined.

Lemma link_eq (l l' : link) :
  href l = href l' → classList l = classList l' → l = l'.
Proof. destruct l, l'. simpl. by intros -> ->. Qed.

(** X21.  [updateActiveNavLink] is idempotent: called again at the same
    scroll position and layout, as the debounced scroll listener does after
    the listener of [initNavbar], it leaves every link as it is. *)
Theorem updateActiveNavLink_twice
    (sections : list section) (scrollY : Q) (navLinks : list link) :
  updateActiveNavLink sections scrollY
    (updateActiveNavLink sections scrollY navLinks) =
  updateActiveNavLink sections scrollY navLinks.
Proof.
  unfold updateActiveNavLink. cbv zeta. rewrite map_map.
  apply map_ext. intros l. apply link_eq; [done|]. simpl.
  unfold ContactForm.add, ContactForm.remove.
  destruct (bool_decide _); apply set_eq; intros c;
    repeat (rewrite elem_of_union || rewrite elem_of_difference
            || rewrite elem_of_singleton);
    tauto.
Qed.

End Navigation.

(** ** Debounced calls *)

Section Debounce.
Import Debounce.
Local Open Scope list_scope.

Context {A S : Type} (func : A → S → S) (wait : Z).

Lemma burst_run (calls : list (Z * A)) (args : A) (st : state A S) :
  timeout st = Some ((now st + wait)%Z, args) →
  Forall (λ c, (0 ≤ c.1 < wait)%Z) calls →
  let st' :=
    run func wait (concat ((λ c, [Wait c.1; Call c.2]) <$> calls)) st in
  timeout st' = Some ((now st' + wait)%Z, last_args args calls) ∧
  world st' = world st.
Proof.
  intros Hst Hcalls. revert args st Hst.
  induction Hcalls as [|[gap a] calls Hgap _ IH]; intros args st Hst; [done|].
  simpl in Hgap.
  change (run func wait (concat ((λ c, [Wait c.1; Call c.2]) <$> (gap, a) :: calls)) st)
    with (run func wait (concat ((λ c, [Wait c.1; Call c.2]) <$> calls))
            (executedFunction wait a (onWait func gap st))).
  assert (onWait func gap st = State (now st + gap) (timeout st) (world st)) as Hwait.
  { unfold onWait. rewrite Hst.
    destruct (Z.leb_spec (now st + wait) (now st + gap)); [lia|done]. }
  destruct (IH a (executedFunction wait a (onWait func gap st))) as [Ht Hw].
  { by rewrite Hwait. }
  cbv zeta. rewrite Ht, Hw, Hwait. split; [|done].
  f_equal. f_equal. unfold last_args. rewrite fmap_cons, last_cons.
  by destruct (last (snd <$> calls)).
Qed.

(** X22.  A debounced function runs once for a burst.  When no timeout is
    pending and calls come less than [wait] milliseconds after each other,
    [func] does not run during the burst; once [wait] milliseconds have
    passed after the last call it has run exactly once, with the arguments
    of the last call, and no timeout is pending. *)
Theorem debounce_burst_runs_once
    (first : A) (calls : list (Z * A)) (d : Z) (st : state A S) :
  timeout st = None →
  Forall (λ c, (0 ≤ c.1 < wait)%Z) calls →
  (wait ≤ d)%Z →
  world (run func wait (burst first calls) st) = world st ∧
  world (run func wait (burst first calls ++ [Wait d]) st) =
    func (last_args first calls) (world st) ∧
  timeout (run func wait (burst first calls ++ [Wait d]) st) = None.
Proof.
  intros Hnone Hcalls Hd.
  destruct (burst_run calls first (executedFunction wait first st) eq_refl Hcalls)
    as [Ht Hw].
  unfold burst.
  change (run func wait (Call first :: ?es) st)
    with (run func wait es (executedFunction wait first st)).
  split; [done|].
  change (run func wait ((Call first :: ?es) ++ [Wait d]) st)
    with (run func wait (es ++ [Wait d]) (executedFunction wait first st)).
  unfold run in *. rewrite fold_left_app. simpl.
  unfold onWait. rewrite Ht.
  destruct (Z.leb_spec (now (fold_left (λ st e, dispatch func wait e st)
              (concat ((λ c, [Wait c.1; Call c.2]) <$> calls))
              (executedFunction wait first st)) + wait)
            (now (fold_left (λ st e, dispatch func wait e st)
              (concat ((λ c, [Wait c.1; Call c.2]) <$> calls))
              (executedFunction wait first st)) + d)); [|lia].
  simpl. by rewrite Hw.
Qed.

End Debounce.

Lemma debounce_burst_runs_once_witness :
  Debounce.timeout sample_debounced = None ∧
  Debounce.world
    (Debounce.run sample_record 10
       (burst "a" [(3%Z, "b"); (9%Z, "c")] ++ [Debounce.Wait 10])
       sample_debounced) = ["c"].
Proof.
  split; [reflexivity|].
  refine (proj1 (proj2 (debounce_burst_runs_once sample_record 10 "a"
                          [(3%Z, "b"); (9%Z, "c")] 10 sample_debounced
                          eq_refl _ _))).
  - repeat constructor; simpl; lia.
  - lia.
Defined.

(** ** The filter of the blog posts *)

Section BlogFilter.
Import BlogFilter.
Local Open Scope list_scope.

Lemma elem_of_schedule (t t0 : timer) (l : list timer) :
  t ∈ schedule t0 l ↔ t = t0 ∨ t ∈ l.
Proof.
  induction l as [|t' l IH]; simpl.
  - rewrite list_elem_of_singleton, elem_of_nil. tauto.
  - destruct (due t' <=? due t0)%Z.
    + rewrite !elem_of_cons, IH. tauto.
    + rewrite !elem_of_cons. tauto.
Qed.

Lemma elem_of_scheduled (results : list (blogPost * timer)) (l : list timer) (t : timer) :
  t ∈ fold_left (λ pending r, schedule (snd r) pending) results l ↔
  t ∈ l ∨ t ∈ snd <$> results.
Proof.
  revert l. induction results as [|r results IH]; intros l; simpl.
  - rewrite elem_of_nil. tauto.
  - rewrite IH, elem_of_schedule, elem_of_cons. tauto.
Qed.

(** The timeouts that run are a first part of the pending ones, and those
    that stay are not due. *)
Lemma elapse_split (target : Z) (l : list timer) (posts : list blogPost) :
  ∃ ran rest,
    l = ran ++ rest ∧ elapse target l posts = (rest, fired ran posts) ∧
    Forall (λ t, (due t ≤ target)%Z) ran ∧
    (Forall (λ t, (due t ≤ target)%Z) l → rest = []).
Proof.
  revert posts. induction l as [|t l IH]; intros posts; simpl.
  - by exists [], [].
  - destruct (Z.leb_spec (due t) target) as [Hle|Hgt].
    + destruct (IH (fire (act t) posts)) as (ran & rest & -> & -> & Hran & Hall).
      exists (t :: ran), rest. repeat split; [by constructor|].
      intros H. apply Hall. by apply Forall_inv_tail in H.
    + exists [], (t :: l). repeat split; [done|].
      intros H. apply Forall_inv in H. lia.
Qed.

Lemma fire_length (a : action) (posts : list blogPost) :
  length (fire a posts) = length posts.
Proof. destruct a; apply length_alter. Qed.

Lemma fired_length (ts : list timer) (posts : list blogPost) :
  length (fired ts posts) = length posts.
Proof.
  revert posts. induction ts as [|t ts IH]; intros posts; [done|].
  simpl. unfold fired in *. simpl. by rewrite IH, fire_length.
Qed.

Lemma fire_lookup (a : action) (posts : list blogPost) (i : nat) (post : blogPost) :
  posts !! i = Some post →
  ∃ post1,
    fire a posts !! i = Some post1 ∧ category post1 = category post ∧
    (a = HidePost i → display post1 = "none"%string) ∧
    (a ≠ HidePost i → display post1 = display post) ∧
    (a = ShowPost i → opacity post1 = "1"%string) ∧
    (a ≠ ShowPost i → opacity post1 = opacity post).
Proof.
  intros Hi. destruct a as [j|j]; simpl; (destruct (decide (j = i)) as [->|Hne];
    [rewrite list_lookup_alter_eq, Hi | rewrite list_lookup_alter_ne, Hi by done]);
    simpl; eexists; (split; [reflexivity|]); simpl; repeat split;
    intros; congruence.
Qed.

(** What the timeouts [ts] leave of the post [i]: it is hidden when one of
    them hides it, and opaque when one of them shows it. *)
Lemma fired_lookup (ts : list timer) (posts : list blogPost) (i : nat) (post : blogPost) :
  posts !! i = Some post →
  ∃ post',
    fired ts posts !! i = Some post' ∧ category post' = category post ∧
    (HidePost i ∈ act <$> ts → display post' = "none"%string) ∧
    (HidePost i ∉ act <$> ts → display post' = display post) ∧
    (ShowPost i ∈ act <$> ts → opacity post' = "1"%string) ∧
    (ShowPost i ∉ act <$> ts → opacity post' = opacity post).
Proof.
  revert posts post. induction ts as [|t ts IH]; intros posts post Hi.
  - exists post. rewrite fmap_nil. repeat split; try done;
      intros H; by apply elem_of_nil in H.
  - change (fired (t :: ts) posts) with (fired ts (fire (act t) posts)).
    destruct (fire_lookup (act t) posts i post Hi)
      as (post1 & Hi1 & Hc1 & Hh1 & Hh1' & Hs1 & Hs1').
    destruct (IH _ _ Hi1) as (post' & Hi' & Hc & Hh & Hh' & Hs & Hs').
    exists post'. split; [done|]. split; [congruence|].
    rewrite fmap_cons, !elem_of_cons. repeat split.
    + intros [Heq|Hin]; [|by apply Hh].
      destruct (decide (HidePost i ∈ act <$> ts)); [by apply Hh|].
      rewrite Hh' by done. by apply Hh1.
    + intros Hn. rewrite Hh' by tauto. apply Hh1'. intros Heq. apply Hn. by left.
    + intros [Heq|Hin]; [|by apply Hs].
      destruct (decide (ShowPost i ∈ act <$> ts)); [by apply Hs|].
      rewrite Hs' by done. by apply Hs1.
    + intros Hn. rewrite Hs' by tauto. apply Hs1'. intros Heq. apply Hn. by left.
Qed.

Lemma onWait_split (d : Z) (p : page) :
  ∃ ran,
    pending p = ran ++ pending (onWait d p) ∧
    blogPosts (onWait d p) = fired ran (blogPosts p) ∧
    Forall (λ t, (due t ≤ now p + d)%Z) ran ∧
    now (onWait d p) = (now p + d)%Z ∧
    (Forall (λ t, (due t ≤ now p + d)%Z) (pending p) → pending (onWait d p) = []).
Proof.
  unfold onWait.
  destruct (elapse_split (now p + d) (pending p) (blogPosts p))
    as (ran & rest & Hl & -> & Hran & Hall).
  by exists ran.
Qed.

Lemma onClick_lookup (filter : option string) (p : page) (i : nat) (post : blogPost) :
  blogPosts p !! i = Some post →
  blogPosts (onClick filter p) !! i = Some (fst (filterPost (now p) filter i post)).
Proof.
  intros Hi. unfold onClick. simpl.
  by rewrite list_lookup_fmap, list_lookup_imap, Hi.
Qed.

Lemma onClick_pending (filter : option string) (p : page) (t : timer) :
  t ∈ pending (onClick filter p) ↔
  t ∈ pending p ∨
  ∃ i post, blogPosts p !! i = Some post ∧ t = snd (filterPost (now p) filter i post).
Proof.
  unfold onClick. simpl. rewrite elem_of_scheduled, list_elem_of_fmap.
  split; (intros [H|H]; [by left|right]).
  - destruct H as ([post' t'] & -> & Hin).
    apply elem_of_lookup_imap in Hin as (i & post & Heq & Hi).
    exists i, post. by rewrite <- Heq.
  - destruct H as (i & post & Hi & ->).
    exists (filterPost (now p) filter i post). split; [done|].
    by apply elem_of_lookup_imap_2.
Qed.

Lemma filterPost_due (now : Z) (filter : option string) (i : nat) (post : blogPost) :
  (due (snd (filterPost now filter i post)) ≤ now + 300)%Z.
Proof. unfold filterPost. destruct (selected filter post); simpl; lia. Qed.

Lemma filterPost_act (now : Z) (filter : option string) (i : nat) (post : blogPost) :
  act (snd (filterPost now filter i post)) =
  if selected filter post then ShowPost i else HidePost i.
Proof. unfold filterPost. by destruct (selected filter post). Qed.

Lemma selected_category (filter : option string) (post post' : blogPost) :
  category post' = category post → selected filter post' = selected filter post.
Proof. unfold selected. by intros ->. Qed.

(** X23.  When no timeout of the filter is pending, a click on a filter
    button followed by at least 300 ms without another click leaves exactly
    the selected posts on the page: a post whose category is the filter, and
    every post for the filter [all], has [display: block] and is opaque;
    every other post has [display: none]; no timeout is left.  So clicks
    that are at least 300 ms apart always end with the posts of the filter
    clicked last. *)
Theorem filter_settles (filter : option string) (d : Z) (p : page) :
  pending p = [] → (300 ≤ d)%Z →
  let p' := run [Click filter; Wait d] p in
  pending p' = [] ∧
  Forall2
    (λ post post',
       category post' = category post ∧
       if selected filter post
       then display post' = "block"%string ∧ opacity post' = "1"%string
       else display post' = "none"%string)
    (blogPosts p) (blogPosts p').
Proof.
  intros Hpending Hd. simpl.
  set (p1 := onClick filter p).
  assert (∀ t, t ∈ pending p1 ↔
            ∃ i post, blogPosts p !! i = Some post ∧
                      t = snd (filterPost (now p) filter i post)) as Hp1.
  { intros t. unfold p1. rewrite onClick_pending, Hpending, elem_of_nil. tauto. }
  destruct (onWait_split d p1) as (ran & Hran & Hposts & _ & _ & Hall).
  assert (pending (onWait d p1) = []) as Hnone.
  { apply Hall, Forall_forall. intros t Ht.
    apply Hp1 in Ht as (i & post & _ & ->).
    pose proof (filterPost_due (now p) filter i post). unfold p1. simpl. lia. }
  split; [done|].
  rewrite Hnone, app_nil_r in Hran. subst ran.
  apply Forall2_same_length_lookup. split.
  { rewrite Hposts, fired_length. unfold p1, onClick. simpl.
    by rewrite length_fmap, length_imap. }
  intros i post post' Hi Hi'.
  pose proof (onClick_lookup filter p i post Hi) as Hi1. fold p1 in Hi1.
  destruct (fired_lookup (pending p1) _ i _ Hi1)
    as (post'' & Hi'' & Hc & Hh & Hh' & Hs & Hs').
  rewrite Hposts, Hi'' in Hi'. injection Hi' as <-.
  assert (act (snd (filterPost (now p) filter i post)) ∈ act <$> pending p1) as Hin.
  { apply list_elem_of_fmap. eexists. split; [reflexivity|].
    apply Hp1. by exists i, post. }
  rewrite filterPost_act in Hin.
  assert (∀ a, a ∈ act <$> pending p1 → a = ShowPost i ∨ a = HidePost i →
               a = if selected filter post then ShowPost i else HidePost i) as Hother.
  { intros a Ha Hor. apply list_elem_of_fmap in Ha as (t & -> & Ht).
    apply Hp1 in Ht as (j & post_j & Hj & ->).
    rewrite filterPost_act in *.
    assert (j = i) as ->.
    { destruct (selected filter post_j); destruct Hor as [[= ?]|[= ?]]; done. }
    rewrite Hi in Hj. by injection Hj as <-. }
  split.
  { rewrite Hc. unfold filterPost. by destruct (selected filter post). }
  destruct (selected filter post) eqn:Hsel.
  - split.
    + rewrite Hh'.
      * unfold filterPost. by rewrite Hsel.
      * intros Hin'. by specialize (Hother _ Hin' (or_intror eq_refl)).
    + by apply Hs.
  - by apply Hh.
Qed.

Lemma filter_settles_witness :
  pending sample_blog = [] ∧
  pending (run [Click (Some "react"); Wait 300] sample_blog) = [] ∧
  Forall2
    (λ post post',
       category post' = category post ∧
       if selected (Some "react") post
       then display post' = "block"%string ∧ opacity post' = "1"%string
       else display post' = "none"%string)
    (blogPosts sample_blog)
    (blogPosts (run [Click (Some "react"); Wait 300] sample_blog)).
Proof.
  split; [reflexivity|].
  apply (filter_settles (Some "react") 300 sample_blog); [reflexivity|lia].
Defined.

(** X24.  A second click less than 300 ms after the first leaves a selected
    post hidden.  The timeout with which the first click hides a post that
    its filter does not select is never cleared; when the second click
    selects that post, and so sets [display: block], the timeout still runs
    afterwards and sets [display: none].  Once everything has run the post
    is opaque and not displayed, although the filter clicked last selects
    it, and nothing is pending that would show it. *)
Theorem quick_second_click_hides_selected_post
    (filter1 filter2 : option string) (d : Z) (p : page) (i : nat) (post : blogPost) :
  pending p = [] → (0 ≤ d < 300)%Z →
  blogPosts p !! i = Some post →
  selected filter1 post = false → selected filter2 post = true →
  let p' := run [Click filter1; Wait d; Click filter2; Wait 300] p in
  pending p' = [] ∧ shows p' i "none" "1".
Proof.
  intros Hpending Hd Hi Hsel1 Hsel2. simpl.
  set (p1 := onClick filter1 p).
  set (p2 := onWait d p1).
  set (p3 := onClick filter2 p2).
  (* the first click *)
  assert (Timer (now p + 300) (HidePost i) ∈ pending p1) as Hhide1.
  { apply onClick_pending. right. exists i, post. split; [done|].
    unfold filterPost. by rewrite Hsel1. }
  assert (Forall (λ t, (due t ≤ now p + 300)%Z) (pending p1)) as Hdue1.
  { apply Forall_forall. intros t Ht.
    apply onClick_pending in Ht as [Ht|(j & post_j & _ & ->)].
    - rewrite Hpending in Ht. by apply elem_of_nil in Ht.
    - apply filterPost_due. }
  pose proof (onClick_lookup filter1 p i post Hi) as Hi1. fold p1 in Hi1.
  (* the wait *)
  destruct (onWait_split d p1) as (ran & Hran & Hposts2 & Hran_due & Hnow2 & _).
  fold p2 in Hran, Hposts2, Hnow2.
  assert (now p1 = now p) as Hnow1 by done. rewrite Hnow1 in Hran_due, Hnow2.
  assert (Timer (now p + 300) (HidePost i) ∈ pending p2) as Hhide2.
  { rewrite Hran in Hhide1. apply elem_of_app in Hhide1 as [Hin|Hin]; [|done].
    rewrite Forall_forall in Hran_due. apply Hran_due in Hin. simpl in Hin. lia. }
  assert (Forall (λ t, (due t ≤ now p + 300)%Z) (pending p2)) as Hdue2.
  { rewrite Hran in Hdue1. by apply Forall_app in Hdue1 as [_ ?]. }
  destruct (fired_lookup ran _ i _ Hi1) as (post2 & Hi2 & Hc2 & _).
  rewrite <- Hposts2 in Hi2.
  assert (selected filter2 post2 = true) as Hsel2'.
  { rewrite <- Hsel2. apply selected_category. rewrite Hc2.
    unfold filterPost. by rewrite Hsel1. }
  (* the second click *)
  pose proof (onClick_lookup filter2 p2 i post2 Hi2) as Hi3. fold p3 in Hi3.
  unfold filterPost in Hi3. rewrite Hsel2' in Hi3. simpl in Hi3.
  assert (Timer (now p + 300) (HidePost i) ∈ pending p3) as Hhide3.
  { apply onClick_pending. by left. }
  assert (Timer (now p2 + 100) (ShowPost i) ∈ pending p3) as Hshow3.
  { apply onClick_pending. right. exists i, post2. split; [done|].
    unfold filterPost. by rewrite Hsel2'. }
  (* everything runs *)
  destruct (onWait_split 300 p3) as (ran' & Hran' & Hposts4 & _ & _ & Hall).
  assert (now p3 = (now p + d)%Z) as Hnow3 by done.
  assert (pending (onWait 300 p3) = []) as Hnone.
  { apply Hall, Forall_forall. intros t Ht. rewrite Hnow3.
    apply onClick_pending in Ht as [Ht|(j & post_j & _ & ->)].
    - rewrite Forall_forall in Hdue2. apply Hdue2 in Ht. lia.
    - pose proof (filterPost_due (now p2) filter2 j post_j). lia. }
  split; [done|].
  rewrite Hnone, app_nil_r in Hran'. subst ran'.
  destruct (fired_lookup (pending p3) _ i _ Hi3) as (post4 & Hi4 & _ & Hh & _ & Hs & _).
  exists post4. rewrite Hposts4. split; [done|]. split.
  - apply Hh. apply list_elem_of_fmap. by eexists (Timer _ (HidePost i)).
  - apply Hs. apply list_elem_of_fmap. by eexists (Timer _ (ShowPost i)).
Qed.

Lemma quick_second_click_hides_selected_post_witness :
  blogPosts sample_blog !! 1%nat = Some sample_post ∧
  selected (Some "react") sample_post = false ∧
  selected (Some "all") sample_post = true ∧
  shows (run [Click (Some "react"); Wait 100; Click (Some "all"); Wait 300]
           sample_blog) 1 "none" "1".
Proof.
  split; [reflexivity|]. split; [reflexivity|]. split; [reflexivity|].
  apply (quick_second_click_hides_selected_post (Some "react") (Some "all") 100
           sample_blog 1 sample_post); [reflexivity|lia|reflexivity..].
Defined.

End BlogFilter.
